(** * The peer-discovery core of libbitcoin: [src/network/protocol.cpp]

    A shallow embedding of [libbitcoin::protocol] and of its nested class
    [protocol::seeds].

    Every member function becomes a computation in a small state-and-log
    monad over the object's fields.  The collaborators ([hosts], [handshake],
    [network], [channel], [acceptor], the channel subscriber) are not part of
    this file: a call into one of them is recorded, in program order, as a
    [call] carrying the bound callback, and the machine defined after the
    member functions lets the environment answer any outstanding request
    with any reply of the callback's signature.

    Conventions.
    - [strand_.wrap(h)] invoked from a collaborator runs [h] inside the
      strand; handlers of one strand never overlap, so one handler run is one
      atomic step of the machine.  A wrapped handler invoked from code that
      already runs inside the strand is dispatched on the spot (this is what
      [io_service::strand::dispatch] does), so it is a direct call here.
    - Collaborators call back asynchronously, never from inside the call
      that registers the callback.
    - Log statements are left out: they change no field and call no
      collaborator.
    - [size_t] values that are container sizes or bounded counters are [nat];
      none of them gets anywhere near the wrap-around of the machine type. *)

From Stdlib Require Import ZArith Lia.
From stdpp Require Import base numbers list strings pretty.

(** ** Data *)

(** [std::error_code]: a value and the identity of its category.  Category 0
    stands for [std::system_category()], the one of [std::error_code()]. *)
Record error_code := mk_error_code { ec_value : Z; ec_category : nat }.

(** [std::error_code()] *)
Definition no_error : error_code := mk_error_code 0%Z 0.

(** [explicit operator bool]: the value is not zero. *)
Definition is_error (ec : error_code) : bool := negb (ec_value ec =? 0)%Z.

(** Identity of the objects held through [std::shared_ptr]. *)
Abbreviation channel_ptr := nat (only parsing).
Abbreviation acceptor_ptr := nat (only parsing).
Abbreviation atomic_counter_ptr := nat (only parsing).
Abbreviation seeds_ptr := nat (only parsing).

(** [message::network_address]; [ip] is the 16-byte [message::ip_address]. *)
Record network_address := mk_network_address {
  timestamp : N;
  services : N;
  ip : list N;
  port : N
}.

(** [message::address] *)
Record address_packet := mk_address_packet { addresses : list network_address }.

Inductive message := get_address.

(** [protocol::connection_info] *)
Record connection_info := mk_connection_info {
  address : network_address;
  node : channel_ptr
}.

(** [static std::string pretty(const message::ip_address& ip)] *)
Definition pretty_ip (a : list N) : string :=
  let byte i := default 0%N (a !! i) in
  pretty (byte 12) +:+ "." +:+ pretty (byte 13) +:+ "." +:+
  pretty (byte 14) +:+ "." +:+ pretty (byte 15).

(** ** Handlers as data

    A handler supplied by the caller of the public interface is opaque: it
    is named by a number and calling it is recorded in the log. *)
Abbreviation caller_handler := nat (only parsing).

(** What the private members receive as [handle_complete]: a default
    constructed [std::function], the caller's own handler, or the closure
    [strand_.wrap(std::bind(&protocol::handle_bootstrap, this, _1,
    count_paths, handle_complete))] that [start] builds for [bootstrap]. *)
Inductive completion_handler :=
| empty_function
| from_caller (handle_complete : caller_handler)
| wrap_handle_bootstrap (count_paths : atomic_counter_ptr)
    (handle_complete : caller_handler).

(** Closures of signature [void (const std::error_code&)] handed to a
    collaborator. *)
Inductive ec_handler :=
| bind_handle_start_handshake_service (count_paths : atomic_counter_ptr)
    (handle_complete : caller_handler)
| bind_handle_save (handle_complete : caller_handler)
| bind_load_hosts (handle_complete : completion_handler)
| bind_seeds_handle_send_get_address (self : seeds_ptr)
| bind_seeds_handle_store (self : seeds_ptr)
| bind_handle_store_address
| bind_channel_stopped (which_node : channel_ptr)
| handle_send.

Inductive fetch_count_handler :=
| bind_if_0_seed (handle_complete : completion_handler).

Inductive fetch_address_handler :=
| bind_attempt_connect.

Inductive connect_handler :=
| bind_seeds_request_addresses (self : seeds_ptr)
| bind_handle_connect (addr : network_address).

Inductive receive_address_handler :=
| bind_seeds_save_addresses (self : seeds_ptr) (dns_seed_node : channel_ptr)
| bind_receive_address_message (from : channel_ptr).

Inductive listen_handler :=
| bind_handle_listen.

Inductive accept_handler :=
| bind_handle_accept (accept : acceptor_ptr).

Inductive posted_handler :=
| bind_try_connect
| bind_do_fetch_connection_count (handle_fetch : caller_handler).

(** One call that leaves the object, in the order the code makes them. *)
Inductive call :=
| hosts_load (filename : string) (h : ec_handler)
| hosts_save (filename : string) (h : ec_handler)
| hosts_fetch_count (h : fetch_count_handler)
| hosts_fetch_address (h : fetch_address_handler)
| hosts_store (addr : network_address) (h : ec_handler)
| handshake_start (h : ec_handler)
| connect (hostname : string) (service_port : N) (h : connect_handler)
| channel_send (to : channel_ptr) (msg : message) (h : ec_handler)
| channel_subscribe_address (on : channel_ptr) (h : receive_address_handler)
| channel_subscribe_stop (on : channel_ptr) (h : ec_handler)
| network_listen (listen_port : N) (h : listen_handler)
| acceptor_accept (on : acceptor_ptr) (h : accept_handler)
| strand_post (h : posted_handler)
| subscriber_subscribe (handle_channel : caller_handler)
| subscriber_relay (new_node : channel_ptr)
| completion_called (handle_complete : caller_handler) (ec : error_code)
| fetch_handler_called (handle_fetch : caller_handler) (ec : error_code)
    (connection_count : nat)
| bad_function_call.

(** ** State *)

(** Fields of [protocol::seeds]. *)
Record seeds := mk_seeds {
  handle_complete_ : completion_handler;
  ended_paths_ : nat;
  finished_ : bool
}.

(** Fields of [protocol], then the objects it allocates with
    [std::make_shared] and shares between closures: a pointer is a position
    in the list. *)
Record protocol := mk_protocol {
  hosts_filename_ : string;
  max_outbound_ : nat;
  connections_ : list connection_info;
  accepted_channels_ : list channel_ptr;
  load_seeds_ : option seeds_ptr;
  seeds_heap : list seeds;
  counter_heap : list nat
}.

(** [protocol::protocol] *)
Definition protocol_new : protocol :=
  mk_protocol "hosts" 8 [] [] None [] [].

Definition set_connections (f : list connection_info → list connection_info)
    (p : protocol) : protocol :=
  mk_protocol (hosts_filename_ p) (max_outbound_ p) (f (connections_ p))
    (accepted_channels_ p) (load_seeds_ p) (seeds_heap p) (counter_heap p).

Definition set_accepted_channels (f : list channel_ptr → list channel_ptr)
    (p : protocol) : protocol :=
  mk_protocol (hosts_filename_ p) (max_outbound_ p) (connections_ p)
    (f (accepted_channels_ p)) (load_seeds_ p) (seeds_heap p) (counter_heap p).

Definition set_load_seeds (s : option seeds_ptr) (p : protocol) : protocol :=
  mk_protocol (hosts_filename_ p) (max_outbound_ p) (connections_ p)
    (accepted_channels_ p) s (seeds_heap p) (counter_heap p).

Definition set_seeds_heap (f : list seeds → list seeds) (p : protocol)
    : protocol :=
  mk_protocol (hosts_filename_ p) (max_outbound_ p) (connections_ p)
    (accepted_channels_ p) (load_seeds_ p) (f (seeds_heap p)) (counter_heap p).

Definition set_counter_heap (f : list nat → list nat) (p : protocol)
    : protocol :=
  mk_protocol (hosts_filename_ p) (max_outbound_ p) (connections_ p)
    (accepted_channels_ p) (load_seeds_ p) (seeds_heap p) (f (counter_heap p)).

(** ** The monad of member functions: the fields, and the calls made *)

Definition M (A : Type) : Type := protocol → A * protocol * list call.

#[global] Instance M_ret : MRet M := λ A a p, (a, p, []).
#[global] Instance M_bind : MBind M := λ A B k m p,
  let '(a, p1, out1) := m p in
  let '(b, p2, out2) := k a p1 in
  (b, p2, out1 ++ out2).

Definition this : M protocol := λ p, (p, p, []).
Definition modify (f : protocol → protocol) : M unit := λ p, (tt, f p, []).
Definition emit (c : call) : M unit := λ p, (tt, p, [c]).
Definition skip : M unit := mret tt.

(** The fields after running [m], and the calls it made. *)
Definition fields_after (m : M unit) (p : protocol) : protocol := (m p).1.2.
Definition calls_of (m : M unit) (p : protocol) : list call := (m p).2.

(** [for (size_t i = lo; i < hi; ++i) body(i)].  [i] only grows, so [hi]
    rounds are always enough. *)
Fixpoint for_rounds (rounds i hi : nat) (body : nat → M unit) : M unit :=
  match rounds with
  | O => skip
  | S rounds' =>
      if (i <? hi) then body i ;; for_rounds rounds' (S i) hi body
      else skip
  end.

Definition for_lt (lo hi : nat) (body : nat → M unit) : M unit :=
  for_rounds hi lo hi body.

(** [for (const auto& x: xs) body(x)] *)
Fixpoint for_each {A} (xs : list A) (body : A → M unit) : M unit :=
  match xs with
  | [] => skip
  | x :: xs' => body x ;; for_each xs' body
  end.

(** ** Connection maintainer *)

(** [protocol::try_connect] *)
Definition try_connect : M unit :=
  p ← this;
  if (max_outbound_ p <=? length (connections_ p)) then skip
  else
    for_lt (length (connections_ p)) (max_outbound_ p)
      (λ _, emit (hosts_fetch_address bind_attempt_connect)).

(** The scan of [attempt_connect]: is some entry of [connections_] at the
    same ip and port? *)
Fixpoint already_connected (addr : network_address)
    (cs : list connection_info) : bool :=
  match cs with
  | [] => false
  | connection :: rest =>
      if bool_decide (ip (address connection) = ip addr)
         && bool_decide (port (address connection) = port addr)
      then true
      else already_connected addr rest
  end.

(** [protocol::attempt_connect] *)
Definition attempt_connect (ec : error_code) (addr : network_address)
    : M unit :=
  if is_error ec then skip
  else
    p ← this;
    if already_connected addr (connections_ p)
    then emit (strand_post bind_try_connect)
    else emit (connect (pretty_ip (ip addr)) (port addr)
                 (bind_handle_connect addr)).

(** [protocol::subscribe_address] *)
Definition subscribe_address (n : channel_ptr) : M unit :=
  emit (channel_subscribe_address n (bind_receive_address_message n)).

(** [protocol::setup_new_channel] *)
Definition setup_new_channel (n : channel_ptr) : M unit :=
  emit (channel_subscribe_stop n (bind_channel_stopped n)) ;;
  subscribe_address n ;;
  emit (channel_send n get_address handle_send) ;;
  emit (subscriber_relay n).

(** [protocol::handle_connect] *)
Definition handle_connect (ec : error_code) (n : channel_ptr)
    (addr : network_address) : M unit :=
  if is_error ec then emit (strand_post bind_try_connect)
  else
    modify (set_connections (λ cs, cs ++ [mk_connection_info addr n])) ;;
    setup_new_channel n.

(** [protocol::channel_stopped]: the iterator loop is a search for the
    first entry whose [node] is [which_node]; [erase(it)] deletes that one
    position. *)
Definition channel_stopped (ec : error_code) (which_node : channel_ptr)
    : M unit :=
  p ← this;
  match list_find (λ c, node c = which_node) (connections_ p) with
  | Some (it, _) =>
      modify (set_connections (delete it)) ;;
      try_connect
  | None => skip
  end ;;
  p ← this;
  match list_find (λ c, c = which_node) (accepted_channels_ p) with
  | Some (acc_it, _) => modify (set_accepted_channels (delete acc_it))
  | None => skip
  end.

(** [protocol::subscribe_channel] *)
Definition subscribe_channel (handle_channel : caller_handler) : M unit :=
  emit (subscriber_subscribe handle_channel).

(** [protocol::receive_address_message]; [handle_store_address] only logs. *)
Definition receive_address_message (ec : error_code) (packet : address_packet)
    (from : channel_ptr) : M unit :=
  if is_error ec then skip
  else
    for_each (addresses packet)
      (λ net_address, emit (hosts_store net_address bind_handle_store_address)).

Definition handle_store_address (ec : error_code) : M unit := skip.

(** [protocol::fetch_connection_count] and
    [protocol::do_fetch_connection_count] *)
Definition fetch_connection_count (handle_fetch : caller_handler) : M unit :=
  emit (strand_post (bind_do_fetch_connection_count handle_fetch)).

Definition do_fetch_connection_count (handle_fetch : caller_handler)
    : M unit :=
  p ← this;
  emit (fetch_handler_called handle_fetch no_error (length (connections_ p))).

(** ** Inbound listener *)

(** [protocol::handle_listen] *)
Definition handle_listen (ec : error_code) (accept : acceptor_ptr) : M unit :=
  if is_error ec then skip
  else emit (acceptor_accept accept (bind_handle_accept accept)).

(** [protocol::handle_accept] *)
Definition handle_accept (ec : error_code) (n : channel_ptr)
    (accept : acceptor_ptr) : M unit :=
  if is_error ec then skip
  else
    modify (set_accepted_channels (λ cs, cs ++ [n])) ;;
    setup_new_channel n.

(** ** Start and stop *)

(** [protocol::run]: [strand_.dispatch] from inside the strand runs
    [try_connect] at once. *)
Definition run : M unit :=
  try_connect ;;
  emit (network_listen 8333%N bind_handle_listen).

(** Reading the shared counter, and its pre-increment. *)
Definition counter_value (c : atomic_counter_ptr) (p : protocol) : nat :=
  default 0 (counter_heap p !! c).

Definition counter_increment (c : atomic_counter_ptr) : M unit :=
  modify (set_counter_heap (alter S c)).

(** [protocol::handle_bootstrap] *)
Definition handle_bootstrap (ec : error_code) (count_paths : atomic_counter_ptr)
    (handle_complete : caller_handler) : M unit :=
  if is_error ec then emit (completion_called handle_complete ec)
  else
    counter_increment count_paths ;;
    p ← this;
    if (counter_value count_paths p =? 2) then
      emit (completion_called handle_complete no_error) ;;
      run
    else skip.

(** [protocol::handle_start_handshake_service] *)
Definition handle_start_handshake_service (ec : error_code)
    (count_paths : atomic_counter_ptr) (handle_complete : caller_handler)
    : M unit :=
  if is_error ec then emit (completion_called handle_complete ec)
  else
    counter_increment count_paths ;;
    p ← this;
    if (counter_value count_paths p =? 2) then
      emit (completion_called handle_complete no_error) ;;
      run
    else skip.

(** Calling a [completion_handler] value from inside the strand. *)
Definition invoke (h : completion_handler) (ec : error_code) : M unit :=
  match h with
  | empty_function => emit bad_function_call
  | from_caller handle_complete => emit (completion_called handle_complete ec)
  | wrap_handle_bootstrap count_paths handle_complete =>
      handle_bootstrap ec count_paths handle_complete
  end.

(** [protocol::stop] *)
Definition stop (handle_complete : caller_handler) : M unit :=
  p ← this;
  emit (hosts_save (hosts_filename_ p) (bind_handle_save handle_complete)).

(** [protocol::handle_save] *)
Definition handle_save (ec : error_code) (handle_complete : caller_handler)
    : M unit :=
  if is_error ec then emit (completion_called handle_complete ec)
  else emit (completion_called handle_complete no_error).

(** ** Seeder: [protocol::seeds] *)

Definition dns_seeds : list string :=
  ["bitseed.xf2.org"; "dnsseed.bluematt.me"; "seed.bitcoin.sipa.be";
   "dnsseed.bitcoin.dashjr.org"].

(** [protocol::seeds::seeds]: the constructor copies the collaborators and
    leaves [handle_complete_] empty; [ended_paths_] and [finished_] have no
    initialiser and are assigned by [start] before anything reads them. *)
Definition seeds_new : seeds := mk_seeds empty_function 0 false.

Definition set_handle_complete (h : completion_handler) (s : seeds) : seeds :=
  mk_seeds h (ended_paths_ s) (finished_ s).
Definition set_ended_paths (n : nat) (s : seeds) : seeds :=
  mk_seeds (handle_complete_ s) n (finished_ s).
Definition set_finished (b : bool) (s : seeds) : seeds :=
  mk_seeds (handle_complete_ s) (ended_paths_ s) b.

(** [++ended_paths_] *)
Definition count_ended_path (s : seeds) : seeds :=
  set_ended_paths (S (ended_paths_ s)) s.

Section Seeds.
(** The object the member functions run on. *)
Variable self : seeds_ptr.

Definition self_fields : M seeds :=
  p ← this; mret (default seeds_new (seeds_heap p !! self)).

Definition self_modify (f : seeds → seeds) : M unit :=
  modify (set_seeds_heap (alter f self)).

(** [protocol::seeds::error_case] *)
Definition seeds_error_case (ec : error_code) : M unit :=
  s ← self_fields;
  if finished_ s then skip
  else
    self_modify count_ended_path ;;
    s ← self_fields;
    if (ended_paths_ s =? length dns_seeds) then
      self_modify (set_finished true) ;;
      invoke (handle_complete_ s) ec
    else skip.

(** [protocol::seeds::connect_dns_seed] *)
Definition seeds_connect_dns_seed (hostname : string) : M unit :=
  emit (connect hostname 8333%N (bind_seeds_request_addresses self)).

(** [protocol::seeds::start] *)
Definition seeds_start (handle_complete : completion_handler) : M unit :=
  self_modify (set_handle_complete handle_complete) ;;
  self_modify (set_ended_paths 0) ;;
  self_modify (set_finished false) ;;
  for_each dns_seeds seeds_connect_dns_seed.

(** [protocol::seeds::request_addresses] *)
Definition seeds_request_addresses (ec : error_code)
    (dns_seed_node : channel_ptr) : M unit :=
  if is_error ec then seeds_error_case ec
  else
    emit (channel_send dns_seed_node get_address
            (bind_seeds_handle_send_get_address self)) ;;
    emit (channel_subscribe_address dns_seed_node
            (bind_seeds_save_addresses self dns_seed_node)).

(** [protocol::seeds::handle_send_get_address] *)
Definition seeds_handle_send_get_address (ec : error_code) : M unit :=
  if is_error ec then seeds_error_case ec else skip.

(** [protocol::seeds::save_addresses] *)
Definition seeds_save_addresses (ec : error_code) (packet : address_packet)
    (dns_seed_node : channel_ptr) : M unit :=
  if is_error ec then seeds_error_case ec
  else
    for_each (addresses packet)
      (λ net_address,
         emit (hosts_store net_address (bind_seeds_handle_store self))) ;;
    s ← self_fields;
    if negb (finished_ s) then
      self_modify count_ended_path ;;
      self_modify (set_finished true) ;;
      s ← self_fields;
      invoke (handle_complete_ s) no_error
    else skip.

(** [protocol::seeds::handle_store]: logs only. *)
Definition seeds_handle_store (ec : error_code) : M unit := skip.
End Seeds.

(** ** Bootstrap *)

(** [protocol::if_0_seed]; [std::make_shared<seeds>(this)] puts a new object
    at the end of the heap. *)
Definition if_0_seed (ec : error_code) (hosts_count : nat)
    (handle_complete : completion_handler) : M unit :=
  if is_error ec then invoke handle_complete ec
  else if (hosts_count =? 0) then
    p ← this;
    let fresh := length (seeds_heap p) in
    modify (set_seeds_heap (λ objs, objs ++ [seeds_new])) ;;
    modify (set_load_seeds (Some fresh)) ;;
    seeds_start fresh handle_complete
  else invoke handle_complete no_error.

(** [protocol::load_hosts] *)
Definition load_hosts (ec : error_code) (handle_complete : completion_handler)
    : M unit :=
  if is_error ec then invoke handle_complete ec
  else emit (hosts_fetch_count (bind_if_0_seed handle_complete)).

(** [protocol::bootstrap] *)
Definition bootstrap (handle_complete : completion_handler) : M unit :=
  p ← this;
  emit (hosts_load (hosts_filename_ p) (bind_load_hosts handle_complete)).

(** [protocol::start]; [std::make_shared<atomic_counter>(0)] puts a new
    counter at the end of the heap, and both closures hold the same one. *)
Definition start (handle_complete : caller_handler) : M unit :=
  p ← this;
  let count_paths := length (counter_heap p) in
  modify (set_counter_heap (λ cs, cs ++ [0])) ;;
  bootstrap (wrap_handle_bootstrap count_paths handle_complete) ;;
  emit (handshake_start
          (bind_handle_start_handshake_service count_paths handle_complete)).

(** ** The machine: requests in flight and their replies *)

(** What a collaborator (or the strand, for a posted handler) passes to the
    callback of a request. *)
Inductive reply :=
| with_ec (ec : error_code)
| with_count (ec : error_code) (hosts_count : nat)
| with_address (ec : error_code) (addr : network_address)
| with_channel (ec : error_code) (n : channel_ptr)
| with_packet (ec : error_code) (packet : address_packet)
| with_acceptor (ec : error_code) (accept : acceptor_ptr)
| ran.

Definition run_ec_handler (h : ec_handler) (ec : error_code) : M unit :=
  match h with
  | bind_handle_start_handshake_service count_paths handle_complete =>
      handle_start_handshake_service ec count_paths handle_complete
  | bind_handle_save handle_complete => handle_save ec handle_complete
  | bind_load_hosts handle_complete => load_hosts ec handle_complete
  | bind_seeds_handle_send_get_address self =>
      seeds_handle_send_get_address self ec
  | bind_seeds_handle_store self => seeds_handle_store ec
  | bind_handle_store_address => handle_store_address ec
  | bind_channel_stopped which_node => channel_stopped ec which_node
  | handle_send => skip
  end.

Definition run_posted_handler (h : posted_handler) : M unit :=
  match h with
  | bind_try_connect => try_connect
  | bind_do_fetch_connection_count handle_fetch =>
      do_fetch_connection_count handle_fetch
  end.

(** The handler run that answers request [c] with reply [r]; [None] when
    [c] waits for no callback or [r] is not of the callback's signature. *)
Definition answer (c : call) (r : reply) : option (M unit) :=
  match c, r with
  | hosts_load _ h, with_ec ec => Some (run_ec_handler h ec)
  | hosts_save _ h, with_ec ec => Some (run_ec_handler h ec)
  | hosts_fetch_count (bind_if_0_seed handle_complete), with_count ec n =>
      Some (if_0_seed ec n handle_complete)
  | hosts_fetch_address bind_attempt_connect, with_address ec addr =>
      Some (attempt_connect ec addr)
  | hosts_store _ h, with_ec ec => Some (run_ec_handler h ec)
  | handshake_start h, with_ec ec => Some (run_ec_handler h ec)
  | connect _ _ (bind_seeds_request_addresses self), with_channel ec n =>
      Some (seeds_request_addresses self ec n)
  | connect _ _ (bind_handle_connect addr), with_channel ec n =>
      Some (handle_connect ec n addr)
  | channel_send _ _ h, with_ec ec => Some (run_ec_handler h ec)
  | channel_subscribe_address _ (bind_seeds_save_addresses self n),
    with_packet ec packet =>
      Some (seeds_save_addresses self ec packet n)
  | channel_subscribe_address _ (bind_receive_address_message n),
    with_packet ec packet =>
      Some (receive_address_message ec packet n)
  | channel_subscribe_stop _ h, with_ec ec => Some (run_ec_handler h ec)
  | network_listen _ bind_handle_listen, with_acceptor ec accept =>
      Some (handle_listen ec accept)
  | acceptor_accept _ (bind_handle_accept accept), with_channel ec n =>
      Some (handle_accept ec n accept)
  | strand_post h, ran => Some (run_posted_handler h)
  | _, _ => None
  end.

(** Does call [c] register a callback that will be answered later? *)
Definition is_request (c : call) : bool :=
  match c with
  | subscriber_subscribe _ | subscriber_relay _ | completion_called _ _
  | fetch_handler_called _ _ _ | bad_function_call => false
  | _ => true
  end.

(** The object, the requests not yet answered (oldest first), and every call
    made so far. *)
Record config := mk_config {
  core : protocol;
  in_flight : list call;
  calls_made : list call
}.

Definition initial : config := mk_config protocol_new [] [].

Inductive event :=
| api_start (handle_complete : caller_handler)
| api_stop (handle_complete : caller_handler)
| api_fetch_connection_count (handle_fetch : caller_handler)
| api_subscribe_channel (handle_channel : caller_handler)
| answered (i : nat) (r : reply).

(** Run [m] on the core of [c]; the requests listed in [waiting] stay in
    flight and the new ones join them. *)
Definition perform (m : M unit) (waiting : list call) (c : config) : config :=
  let '(_, p, out) := m (core c) in
  mk_config p (waiting ++ filter (λ x, is_request x = true) out)
    (calls_made c ++ out).

(** One event.  A request is answered once: it leaves [in_flight] when its
    callback runs. *)
Definition step (c : config) (e : event) : option config :=
  match e with
  | api_start h => Some (perform (start h) (in_flight c) c)
  | api_stop h => Some (perform (stop h) (in_flight c) c)
  | api_fetch_connection_count h =>
      Some (perform (fetch_connection_count h) (in_flight c) c)
  | api_subscribe_channel h =>
      Some (perform (subscribe_channel h) (in_flight c) c)
  | answered i r =>
      req ← in_flight c !! i;
      m ← answer req r;
      Some (perform m (delete i (in_flight c)) c)
  end.

Fixpoint steps (c : config) (es : list event) : option config :=
  match es with
  | [] => Some c
  | e :: es' => c' ← step c e; steps c' es'
  end.

(** ** Observations on the log *)

Definition is_fetch_address (c : call) : bool :=
  match c with hosts_fetch_address _ => true | _ => false end.

Definition is_hosts_store (c : call) : bool :=
  match c with hosts_store _ _ => true | _ => false end.

(** The error codes the caller's handler [h] was called with, in order. *)
Definition completions_of (h : caller_handler) (cs : list call)
    : list error_code :=
  omap (λ c, match c with
             | completion_called h' ec =>
                 if decide (h' = h) then Some ec else None
             | _ => None
             end) cs.

(** The (ip, port) pairs of the outbound list. *)
Definition endpoints (cs : list connection_info) : list (list N * N) :=
  (λ c, (ip (address c), port (address c))) <$> cs.

(** ** Runs of the machine from a fresh object *)

Definition ipv4 (a b c d : N) : list N :=
  replicate 10 0%N ++ [255; 255; a; b; c; d]%N.

(** The peer 10.0.0.d:8333. *)
Definition peer (d : N) : network_address :=
  mk_network_address 0 1 (ipv4 10 0 0 d) 8333.

Definition load_failed : error_code := mk_error_code 2 1.
Definition service_failed : error_code := mk_error_code 3 1.
Definition refused : error_code := mk_error_code 111 1.
Definition timed_out : error_code := mk_error_code 110 1.
Definition send_failed : error_code := mk_error_code 32 1.
Definition receive_failed : error_code := mk_error_code 104 1.

(** [start(0)]: the load fails, then the handshake service fails to start. *)
Definition both_paths_fail : list event :=
  [api_start 0;
   answered 0 (with_ec load_failed);
   answered 0 (with_ec service_failed)].

(** [start(0)] with 100 known hosts: load, count and handshake service all
    succeed.  Left in flight: eight [fetch_address] (0 to 7) and [listen]. *)
Definition warm_start : list event :=
  [api_start 0;
   answered 0 (with_ec no_error);
   answered 1 (with_count no_error 100);
   answered 0 (with_ec no_error)].

(** The fetch at position [i] draws 10.0.0.d, which is not connected yet, so
    a connect joins the end of the in-flight list, at position [j]; that
    connect succeeds with channel [d]. *)
Definition draw_and_connect (i j d : nat) : list event :=
  [answered i (with_address no_error (peer (N.of_nat d)));
   answered j (with_channel no_error d)].

(** One connect error while seven fetches are pending: the reposted
    [try_connect] sees an empty list and issues eight more (positions 8 to
    15, behind [listen] at 7).  Nine of the fifteen then draw nine
    different peers and every connect succeeds. *)
Definition overshoot : list event :=
  warm_start
  ++ [answered 0 (with_address no_error (peer 100));
      answered 8 (with_channel refused 0);
      answered 8 ran]
  ++ flat_map (λ k, draw_and_connect 8 (15 + 2 * k) (S k)) (seq 0 8)
  ++ draw_and_connect 0 31 9.

(** Two pending fetches draw the same peer before either connect is
    answered; both connects succeed, on channels 1 and 2. *)
Definition same_draw_twice : list event :=
  warm_start
  ++ [answered 0 (with_address no_error (peer 1));
      answered 0 (with_address no_error (peer 1));
      answered 7 (with_channel no_error 1);
      answered 7 (with_channel no_error 2)].

(** [start(0)] with an empty host store: the seeder starts.  In flight: the
    handshake service (0) and the connects to the four seeds (1 to 4). *)
Definition cold_start : list event :=
  [api_start 0;
   answered 0 (with_ec no_error);
   answered 1 (with_count no_error 0)].

(** The first seed connects (channel 1), its send fails and its address
    subscription reports an error; the second and the third seed fail to
    connect.  The fourth seed has not answered. *)
Definition three_seeds_four_errors : list event :=
  cold_start
  ++ [answered 1 (with_channel no_error 1);
      answered 4 (with_ec send_failed);
      answered 4 (with_packet receive_failed (mk_address_packet []));
      answered 1 (with_channel refused 0);
      answered 1 (with_channel timed_out 0)].

(** ... and then the fourth seed connects (channel 2) and delivers two
    addresses. *)
Definition fourth_seed_delivers : list event :=
  three_seeds_four_errors
  ++ [answered 1 (with_channel no_error 2);
      answered 2 (with_packet no_error (mk_address_packet [peer 1; peer 2]))].

(** ** Two states of the object *)

(** A seeder that has just started, as [if_0_seed] leaves it. *)
Definition seeding : protocol :=
  mk_protocol "hosts" 8 [] [] (Some 0)
    [mk_seeds (wrap_handle_bootstrap 0 0) 0 false] [0].

(** Two outbound peers on channels 1 and 2, two inbound channels 5 and 6. *)
Definition two_out_two_in : protocol :=
  mk_protocol "hosts" 8
    [mk_connection_info (peer 1) 1; mk_connection_info (peer 2) 2]
    [5; 6] None [] [].

(** ** One seeder object and the callbacks it registers *)

(** What comes back for the requests of one [protocol::seeds] object: the
    answer to a connect, to the send of [get_address], to the address
    subscription, or to a store. *)
Inductive seed_reply :=
| connect_answered (ec : error_code) (dns_seed_node : channel_ptr)
| send_answered (ec : error_code)
| addresses_answered (ec : error_code) (packet : address_packet)
    (dns_seed_node : channel_ptr)
| store_answered (ec : error_code).

(** The member function each of them runs. *)
Definition seeds_deliver (self : seeds_ptr) (r : seed_reply) : M unit :=
  match r with
  | connect_answered ec n => seeds_request_addresses self ec n
  | send_answered ec => seeds_handle_send_get_address self ec
  | addresses_answered ec packet n => seeds_save_addresses self ec packet n
  | store_answered ec => seeds_handle_store ec
  end.

(** [start], then the callbacks in the order the strand runs them. *)
Definition seeding_run (self : seeds_ptr) (h : completion_handler)
    (rs : list seed_reply) : M unit :=
  seeds_start self h ;; for_each rs (seeds_deliver self).

(** A reply that hands over addresses. *)
Definition delivers (r : seed_reply) : bool :=
  match r with
  | addresses_answered ec _ _ => negb (is_error ec)
  | _ => false
  end.

(** The error a reply reports to the seeder, if any; a failed store is not
    one. *)
Definition reported_error (r : seed_reply) : option error_code :=
  match r with
  | connect_answered ec _ | send_answered ec | addresses_answered ec _ _ =>
      if is_error ec then Some ec else None
  | store_answered _ => None
  end.

Definition error_reports (rs : list seed_reply) : list error_code :=
  omap reported_error rs.

(** The requests a reply makes the seeder issue, whatever its state: a
    connected seed is sent [get_address] and subscribed to, delivered
    addresses are stored. *)
Definition requests_after (self : seeds_ptr) (r : seed_reply) : list call :=
  match r with
  | connect_answered ec n =>
      if is_error ec then []
      else [channel_send n get_address (bind_seeds_handle_send_get_address self);
            channel_subscribe_address n (bind_seeds_save_addresses self n)]
  | addresses_answered ec packet _ =>
      if is_error ec then []
      else (λ a, hosts_store a (bind_seeds_handle_store self))
           <$> addresses packet
  | _ => []
  end.

(** The counter and the flag of a seeder after a reply, and the codes its
    completion handler is called with: the bookkeeping of [error_case] and
    [save_addresses] on its own, used to follow a whole run. *)
Definition seeder_next (st : nat * bool) (r : seed_reply)
    : (nat * bool) * list error_code :=
  let '(ended, finished) := st in
  if finished then (st, [])
  else if delivers r then ((S ended, true), [no_error])
  else match reported_error r with
       | Some ec =>
           if S ended =? length dns_seeds then ((S ended, true), [ec])
           else ((S ended, false), [])
       | None => (st, [])
       end.

Fixpoint seeder_codes (st : nat * bool) (rs : list seed_reply)
    : list error_code :=
  match rs with
  | [] => []
  | r :: rs' =>
      let '(st', codes) := seeder_next st r in codes ++ seeder_codes st' rs'
  end.

Definition is_completion_called (c : call) : bool :=
  match c with completion_called _ _ => true | _ => false end.

(** A seeder object created directly with the caller's handler 7, and four
    replies: three connect errors and one delivery. *)
Definition idle_seeder : protocol :=
  mk_protocol "hosts" 8 [] [] (Some 0) [seeds_new] [].

Definition three_errors_then_delivery : list seed_reply :=
  [connect_answered refused 0;
   connect_answered timed_out 0;
   connect_answered no_error 1;
   send_answered send_failed;
   addresses_answered no_error (mk_address_packet [peer 1; peer 2]) 1;
   connect_answered refused 0].

Definition four_errors : list seed_reply :=
  [connect_answered refused 0;
   connect_answered no_error 1;
   send_answered send_failed;
   store_answered load_failed;
   connect_answered timed_out 0;
   addresses_answered receive_failed (mk_address_packet []) 1;
   connect_answered refused 0].

(** ** What a step may do to the two lists *)

Definition is_accept (c : call) : bool :=
  match c with acceptor_accept _ _ => true | _ => false end.

Definition is_listen (c : call) : bool :=
  match c with network_listen _ _ => true | _ => false end.

(** A connect issued by the connection maintainer (not by the seeder). *)
Definition is_outbound_connect (c : call) : bool :=
  match c with connect _ _ (bind_handle_connect _) => true | _ => false end.

(** The calls that can lead to a new entry in a list. *)
Definition arms (c : call) : bool := is_accept c || is_outbound_connect c.

(** The four calls of [setup_new_channel]. *)
Definition setup_calls (n : channel_ptr) : list call :=
  [channel_subscribe_stop n (bind_channel_stopped n);
   channel_subscribe_address n (bind_receive_address_message n);
   channel_send n get_address handle_send;
   subscriber_relay n].

(** [p'] has the configuration of [p] and nothing new in either list. *)
Definition shrinks (p p' : protocol) : Prop :=
  hosts_filename_ p' = hosts_filename_ p
  ∧ max_outbound_ p' = max_outbound_ p
  ∧ sublist (connections_ p') (connections_ p)
  ∧ sublist (accepted_channels_ p') (accepted_channels_ p).

(** A computation that adds to neither list, arms no accept and issues no
    outbound connect. *)
Definition quiet {A} (m : M A) : Prop :=
  ∀ p, shrinks p (m p).1.2 ∧ Forall (λ c, arms c = false) (m p).2.

(** The ways one handler run, answering request [req] (if any), can take the
    lists from [p] to [p'] while making the calls [out]. *)
Inductive list_effect (p : protocol) (req : option call) (p' : protocol)
    (out : list call) : Prop :=
| nothing_added :
    sublist (connections_ p') (connections_ p) →
    sublist (accepted_channels_ p') (accepted_channels_ p) →
    Forall (λ c, arms c = false) out →
    list_effect p req p' out
| connect_issued (addr : network_address) :
    req = Some (hosts_fetch_address bind_attempt_connect) →
    connections_ p' = connections_ p →
    accepted_channels_ p' = accepted_channels_ p →
    out = [connect (pretty_ip (ip addr)) (port addr)
             (bind_handle_connect addr)] →
    list_effect p req p' out
| outbound_added (hostname : string) (service_port : N)
    (addr : network_address) (n : channel_ptr) :
    req = Some (connect hostname service_port (bind_handle_connect addr)) →
    connections_ p' = connections_ p ++ [mk_connection_info addr n] →
    accepted_channels_ p' = accepted_channels_ p →
    out = setup_calls n →
    list_effect p req p' out
| inbound_added (on accept : acceptor_ptr) (n : channel_ptr) :
    req = Some (acceptor_accept on (bind_handle_accept accept)) →
    connections_ p' = connections_ p →
    accepted_channels_ p' = accepted_channels_ p ++ [n] →
    out = setup_calls n →
    list_effect p req p' out
| accept_armed (listen_port : N) (accept : acceptor_ptr) :
    req = Some (network_listen listen_port bind_handle_listen) →
    connections_ p' = connections_ p →
    accepted_channels_ p' = accepted_channels_ p →
    out = [acceptor_accept accept (bind_handle_accept accept)] →
    list_effect p req p' out.

(** The request an event answers, and the requests that stay in flight. *)
Definition answered_request (c : config) (e : event) : option call :=
  match e with answered i _ => in_flight c !! i | _ => None end.

Definition still_waiting (c : config) (e : event) : list call :=
  match e with answered i _ => delete i (in_flight c) | _ => in_flight c end.

(** The channels of both lists. *)
Definition listed_channels (p : protocol) : list channel_ptr :=
  (node <$> connections_ p) ++ accepted_channels_ p.

(** A handler that, answering [req], keeps the configuration and changes
    the lists in one of the ways of [list_effect]. *)
Definition handler_effect (req : option call) (m : M unit) : Prop :=
  ∀ p, hosts_filename_ (m p).1.2 = hosts_filename_ p
       ∧ max_outbound_ (m p).1.2 = max_outbound_ p
       ∧ list_effect p req (m p).1.2 (m p).2.

(** How many calls of a kind a list holds. *)
Definition count_calls (kind : call → bool) (cs : list call) : nat :=
  length (filter (λ c, kind c = true) cs).

(** Two configurations reached from a fresh object. *)
Definition started : config := perform (start 0) [] initial.

Definition after_warm_start : config :=
  default initial (steps initial warm_start).

Definition after_same_draw_twice : config :=
  default initial (steps initial same_draw_twice).

(** ** Dotted quads *)

(** No character of the string is a dot (character 46). *)
Fixpoint dotless (s : string) : bool :=
  match s with
  | EmptyString => true
  | String a s' => negb (Ascii.eqb a (Ascii.ascii_of_nat 46)) && dotless s'
  end.

(** * Properties *)

Ltac run_machine := eexists; split; [vm_compute; reflexivity|].


(** ** Running the loops *)

Lemma seq_run (m1 m2 : M unit) (p p1 p2 : protocol) (out1 out2 : list call) :
  m1 p = (tt, p1, out1) → m2 p1 = (tt, p2, out2) →
  (m1 ;; m2) p = (tt, p2, out1 ++ out2).
Proof. intros H1 H2. unfold mbind, M_bind. by rewrite H1, H2. Qed.

Lemma for_rounds_emit (x : call) (rounds i hi : nat) (p : protocol) :
  for_rounds rounds i hi (λ _, emit x) p
  = (tt, p, replicate (rounds `min` (hi - i)) x).
Proof.
  revert i. induction rounds as [|r IH]; intros i; cbn [for_rounds].
  - reflexivity.
  - destruct (Nat.ltb_spec i hi) as [Hlt|Hge].
    + unfold mbind, M_bind. cbn [emit]. rewrite IH.
      replace (hi - i) with (S (hi - S i)) by lia. reflexivity.
    + replace (hi - i) with 0 by lia. rewrite Nat.min_0_r. reflexivity.
Qed.

Lemma try_connect_run (p : protocol) :
  try_connect p
  = (tt, p, replicate (max_outbound_ p - length (connections_ p))
              (hosts_fetch_address bind_attempt_connect)).
Proof.
  unfold try_connect, mbind, M_bind, this.
  destruct (Nat.leb_spec (max_outbound_ p) (length (connections_ p))) as [Hfull|Hroom].
  - replace (max_outbound_ p - length (connections_ p)) with 0 by lia. reflexivity.
  - unfold for_lt. rewrite for_rounds_emit, Nat.min_r by lia. reflexivity.
Qed.

(** [channel_stopped] in one piece: the outbound scan, then the inbound
    one on what the first left. *)
Lemma channel_stopped_run (ec : error_code) (which_node : channel_ptr)
    (p : protocol) :
  channel_stopped ec which_node p
  = let found := list_find (λ c, node c = which_node) (connections_ p) in
    let p1 := match found with
              | Some (it, _) => set_connections (delete it) p
              | None => p
              end in
    let out := match found with
               | Some _ =>
                   replicate (max_outbound_ p1 - length (connections_ p1))
                     (hosts_fetch_address bind_attempt_connect)
               | None => []
               end in
    let p2 := match list_find (λ c, c = which_node) (accepted_channels_ p1) with
              | Some (acc_it, _) => set_accepted_channels (delete acc_it) p1
              | None => p1
              end in
    (tt, p2, out).
Proof.
  unfold channel_stopped, mbind, M_bind, this. cbn zeta.
  destruct (list_find _ (connections_ p)) as [[it c]|].
  - unfold modify at 1. rewrite try_connect_run. cbn [app].
    destruct (list_find _ (accepted_channels_ _)) as [[acc_it a]|];
      cbn; rewrite app_nil_r; reflexivity.
  - cbn. destruct (list_find _ (accepted_channels_ p)) as [[acc_it a]|];
      reflexivity.
Qed.

Lemma list_find_first {A} (P : A → Prop) `{∀ x, Decision (P x)}
    (l : list A) (i : nat) (x : A) :
  l !! i = Some x → P x → (∀ j y, j < i → l !! j = Some y → ¬ P y) →
  list_find P l = Some (i, x).
Proof. intros Hi HP Hleast. apply list_find_Some. naive_solver. Qed.

Lemma list_find_absent {A} (P : A → Prop) `{∀ x, Decision (P x)}
    (l : list A) :
  (∀ x, x ∈ l → ¬ P x) → list_find P l = None.
Proof. intros Hno. apply list_find_None, Forall_forall. exact Hno. Qed.

Lemma not_outbound_find (which_node : channel_ptr)
    (cs : list connection_info) :
  which_node ∉ node <$> cs →
  list_find (λ c, node c = which_node) cs = None.
Proof.
  intros Hno. apply list_find_absent. intros c Hc Heq. apply Hno.
  rewrite <- Heq. apply list_elem_of_fmap_2. exact Hc.
Qed.

Lemma not_inbound_find (which_node : channel_ptr) (cs : list channel_ptr) :
  which_node ∉ cs → list_find (λ c, c = which_node) cs = None.
Proof. intros Hno. apply list_find_absent. intros c Hc ->. exact (Hno Hc). Qed.

Lemma count_fetches_replicate (n : nat) (h : fetch_address_handler) :
  length (filter (λ c, is_fetch_address c = true)
            (replicate n (hosts_fetch_address h))) = n.
Proof.
  induction n as [|n IH]; [reflexivity|].
  cbn [replicate]. rewrite filter_cons_True by reflexivity.
  cbn [length]. by rewrite IH.
Qed.

(** ** Filling the vacant slots *)

(** C5.  Whatever the outbound list holds, [try_connect] makes exactly
    max(0, max_outbound - |outbound|) calls of [fetch_address] on the host
    store and nothing else: the calls it makes are that many copies of the
    same request, none at all once the list has reached [max_outbound_],
    and no field changes. *)
Theorem try_connect_issues_one_fetch_per_vacancy (p : protocol) :
  calls_of try_connect p
  = replicate (max_outbound_ p - length (connections_ p))
      (hosts_fetch_address bind_attempt_connect)
  ∧ Z.of_nat (length (filter (λ c, is_fetch_address c = true)
                        (calls_of try_connect p)))
    = Z.max 0 (Z.of_nat (max_outbound_ p)
               - Z.of_nat (length (connections_ p)))
  ∧ fields_after try_connect p = p.
Proof.
  unfold calls_of, fields_after. rewrite try_connect_run. cbn [fst snd].
  split_and!; [reflexivity| |reflexivity].
  rewrite count_fetches_replicate. lia.
Qed.

(** ** Churn *)

(** C6.  [channel_stopped] deletes from the outbound list the first entry
    whose channel is the stopped one and then runs [try_connect] on the
    shortened list (one [fetch_address] per vacancy); whether or not that
    happened, it deletes the first occurrence of the channel from the
    inbound list; a channel found in a list it is not in changes nothing
    there, and a channel in neither list leaves every field as it was and
    makes no call. *)
Theorem channel_stopped_removes_and_refills (ec : error_code)
    (which_node : channel_ptr) (p : protocol) :
  let p' := fields_after (channel_stopped ec which_node) p in
  let out := calls_of (channel_stopped ec which_node) p in
  (∀ it c,
     connections_ p !! it = Some c → node c = which_node →
     (∀ j c', j < it → connections_ p !! j = Some c' → node c' ≠ which_node) →
     connections_ p' = delete it (connections_ p)
     ∧ out = calls_of try_connect (set_connections (delete it) p)
     ∧ out = replicate (max_outbound_ p - (length (connections_ p) - 1))
               (hosts_fetch_address bind_attempt_connect))
  ∧ (which_node ∉ node <$> connections_ p →
     connections_ p' = connections_ p ∧ out = [])
  ∧ (∀ acc_it,
       accepted_channels_ p !! acc_it = Some which_node →
       (∀ j, j < acc_it → accepted_channels_ p !! j ≠ Some which_node) →
       accepted_channels_ p' = delete acc_it (accepted_channels_ p))
  ∧ (which_node ∉ accepted_channels_ p →
     accepted_channels_ p' = accepted_channels_ p)
  ∧ (which_node ∉ node <$> connections_ p →
     which_node ∉ accepted_channels_ p →
     p' = p ∧ out = []).
Proof.
  intros p' out. subst p' out. unfold calls_of, fields_after.
  rewrite channel_stopped_run. cbn zeta. cbn [fst snd].
  split_and!.
  - intros it c Hit Hnode Hfirst.
    rewrite (list_find_first _ _ it c Hit Hnode)
      by (intros j y Hj Hy; exact (Hfirst j y Hj Hy)).
    unfold calls_of. rewrite try_connect_run. cbn [fst snd].
    assert (length (delete it (connections_ p)) = length (connections_ p) - 1)
      as Hlen.
    { rewrite length_delete by eauto. reflexivity. }
    split_and!.
    + destruct (list_find _ (accepted_channels_ _)) as [[??]|]; reflexivity.
    + reflexivity.
    + cbn. rewrite Hlen. reflexivity.
  - intros Hout. rewrite (not_outbound_find _ _ Hout).
    split; [|reflexivity].
    destruct (list_find _ (accepted_channels_ _)) as [[??]|]; reflexivity.
  - intros acc_it Hit Hfirst.
    assert (list_find (λ c, c = which_node) (accepted_channels_ p)
            = Some (acc_it, which_node)) as Hfind.
    { apply list_find_first; [exact Hit|reflexivity|].
      intros j y Hj Hy ->. exact (Hfirst j Hj Hy). }
    destruct (list_find _ (connections_ p)) as [[??]|]; cbn;
      rewrite Hfind; reflexivity.
  - intros Hin.
    destruct (list_find _ (connections_ p)) as [[??]|]; cbn;
      rewrite (not_inbound_find _ _ Hin); reflexivity.
  - intros Hout Hin. rewrite (not_outbound_find _ _ Hout).
    rewrite (not_inbound_find _ _ Hin). split; reflexivity.
Qed.

(** C10.  When the stopped channel is in the inbound list and not in the
    outbound one, [channel_stopped] deletes its first occurrence from the
    inbound list, leaves the outbound list as it was and makes no call at
    all: [try_connect] does not run and no [fetch_address] is issued. *)
Theorem channel_stopped_inbound_only (ec : error_code)
    (which_node : channel_ptr) (p : protocol) :
  which_node ∉ node <$> connections_ p →
  which_node ∈ accepted_channels_ p →
  let p' := fields_after (channel_stopped ec which_node) p in
  calls_of (channel_stopped ec which_node) p = []
  ∧ connections_ p' = connections_ p
  ∧ ∃ acc_it,
      accepted_channels_ p !! acc_it = Some which_node
      ∧ (∀ j, j < acc_it → accepted_channels_ p !! j ≠ Some which_node)
      ∧ accepted_channels_ p' = delete acc_it (accepted_channels_ p)
      ∧ length (accepted_channels_ p') = length (accepted_channels_ p) - 1.
Proof.
  intros Hout Hin p'. subst p'. unfold calls_of, fields_after.
  rewrite channel_stopped_run. cbn zeta. cbn [fst snd].
  rewrite (not_outbound_find _ _ Hout).
  split_and!; [reflexivity| |].
  - destruct (list_find _ (accepted_channels_ p)) as [[??]|]; reflexivity.
  - destruct (list_find (λ c, c = which_node) (accepted_channels_ p))
      as [[acc_it a]|] eqn:Hfind.
    + apply list_find_Some in Hfind as (Hit & -> & Hfirst).
      exists acc_it. split_and!.
      * exact Hit.
      * intros j Hj Hjw. exact (Hfirst j which_node Hjw Hj eq_refl).
      * reflexivity.
      * cbn. rewrite length_delete by eauto. reflexivity.
    + exfalso. apply list_find_None in Hfind.
      rewrite Forall_forall in Hfind. exact (Hfind which_node Hin eq_refl).
Qed.

(** ** Stop, and the connection count *)

(** C7.  In any configuration, [stop] makes one call, the save of the host
    store under [hosts_filename_], and changes no field; when that save is
    answered with [ec], [handle_save] calls the caller's handler once and
    does nothing else: with [ec] itself when [ec] is an error, with
    [std::error_code()] otherwise. *)
Theorem stop_saves_then_reports (c : config) (handle_complete : caller_handler)
    (ec : error_code) :
  let save :=
    hosts_save (hosts_filename_ (core c)) (bind_handle_save handle_complete) in
  ∃ c1 c2,
    step c (api_stop handle_complete) = Some c1
    ∧ core c1 = core c
    ∧ calls_made c1 = calls_made c ++ [save]
    ∧ in_flight c1 = in_flight c ++ [save]
    ∧ step c1 (answered (length (in_flight c)) (with_ec ec)) = Some c2
    ∧ core c2 = core c
    ∧ in_flight c2 = in_flight c
    ∧ calls_made c2
      = calls_made c1
        ++ [completion_called handle_complete
              (if is_error ec then ec else no_error)].
Proof.
  intros save.
  exists (mk_config (core c) (in_flight c ++ [save]) (calls_made c ++ [save])).
  exists (mk_config (core c) (in_flight c)
            ((calls_made c ++ [save])
             ++ [completion_called handle_complete
                   (if is_error ec then ec else no_error)])).
  assert (delete (length (in_flight c)) (in_flight c ++ [save]) = in_flight c)
    as Hgone.
  { rewrite delete_middle. apply app_nil_r. }
  split_and!; try reflexivity.
  cbn [step in_flight]. rewrite list_lookup_middle by reflexivity.
  cbn. rewrite Hgone. unfold perform, handle_save. cbn.
  destruct (is_error ec); cbn; rewrite app_nil_r; reflexivity.
Qed.

(** C8.  [fetch_connection_count] posts [do_fetch_connection_count] to the
    strand and touches nothing; when the posted handler runs, on whatever
    the fields then are, it calls the caller's handler once with
    [std::error_code()] and the length of [connections_], and that call is
    the same whatever [accepted_channels_] holds. *)
Theorem fetch_connection_count_reports_outbound
    (handle_fetch : caller_handler) (p : protocol) :
  fetch_connection_count handle_fetch p
  = (tt, p, [strand_post (bind_do_fetch_connection_count handle_fetch)])
  ∧ answer (strand_post (bind_do_fetch_connection_count handle_fetch)) ran
    = Some (do_fetch_connection_count handle_fetch)
  ∧ (∀ p', do_fetch_connection_count handle_fetch p'
           = (tt, p', [fetch_handler_called handle_fetch no_error
                         (length (connections_ p'))]))
  ∧ (∀ p' inbound,
       calls_of (do_fetch_connection_count handle_fetch)
         (set_accepted_channels (λ _, inbound) p')
       = [fetch_handler_called handle_fetch no_error
            (length (connections_ p'))])
  ∧ is_error no_error = false.
Proof. split_and!; reflexivity. Qed.

(** ** The seeder's counter *)

(** [error_case] on an object that has not finished: the counter goes up
    by one, and on reaching the size of the seed list the object finishes
    and calls [handle_complete_] with this very error. *)
Lemma seeds_error_case_run (self : seeds_ptr) (ec : error_code)
    (p : protocol) (s : seeds) :
  seeds_heap p !! self = Some s → finished_ s = false →
  seeds_error_case self ec p
  = if S (ended_paths_ s) =? length dns_seeds then
      let p1 := set_seeds_heap
                  (alter (set_finished true) self)
                  (set_seeds_heap (alter count_ended_path self) p) in
      (tt, fields_after (invoke (handle_complete_ s) ec) p1,
       calls_of (invoke (handle_complete_ s) ec) p1)
    else (tt, set_seeds_heap (alter count_ended_path self) p, []).
Proof.
  intros Hself Hrunning.
  unfold seeds_error_case, self_fields, self_modify, mbind, M_bind, mret,
    M_ret, this, modify.
  rewrite Hself. cbn [default from_option id]. rewrite Hrunning.
  cbn [set_seeds_heap seeds_heap]. rewrite list_lookup_alter_eq, Hself.
  cbn [fmap option_fmap option_map default from_option id count_ended_path
       set_ended_paths ended_paths_ handle_complete_].
  destruct (S (ended_paths_ s) =? length dns_seeds).
  - unfold fields_after, calls_of.
    destruct (invoke (handle_complete_ s) ec _) as [[[] p2] out].
    reflexivity.
  - reflexivity.
Qed.

(** A finished object swallows every later error. *)
Lemma seeds_error_case_finished (self : seeds_ptr) (ec : error_code)
    (p : protocol) (s : seeds) :
  seeds_heap p !! self = Some s → finished_ s = true →
  seeds_error_case self ec p = (tt, p, []).
Proof.
  intros Hself Hdone.
  unfold seeds_error_case, self_fields, mbind, M_bind, mret, M_ret, this.
  rewrite Hself. cbn [default from_option id]. rewrite Hdone. reflexivity.
Qed.

(** Both callbacks of one connected seed reporting an error, on an object
    that can take two more counts without reaching the seed-list size. *)
Lemma one_seed_two_counts (self : seeds_ptr) (send_ec receive_ec : error_code)
    (packet : address_packet) (n : channel_ptr) (p : protocol) (s : seeds) :
  seeds_heap p !! self = Some s → finished_ s = false →
  is_error send_ec = true → is_error receive_ec = true →
  ended_paths_ s + 2 < length dns_seeds →
  let both := seeds_handle_send_get_address self send_ec ;;
              seeds_save_addresses self receive_ec packet n in
  seeds_heap (fields_after both p) !! self
  = Some (set_ended_paths (ended_paths_ s + 2) s)
  ∧ calls_of both p = [].
Proof.
  intros Hself Hrunning Hsend Hreceive Hroom both. subst both.
  set (p1 := set_seeds_heap (alter count_ended_path self) p).
  set (p2 := set_seeds_heap (alter count_ended_path self) p1).
  assert (seeds_heap p1 !! self = Some (count_ended_path s)) as Hself1.
  { subst p1. cbn. by rewrite list_lookup_alter_eq, Hself. }
  assert (seeds_handle_send_get_address self send_ec p = (tt, p1, []))
    as Hfirst.
  { unfold seeds_handle_send_get_address. rewrite Hsend.
    rewrite (seeds_error_case_run self send_ec p s Hself Hrunning).
    destruct (Nat.eqb_spec (S (ended_paths_ s)) (length dns_seeds)); [lia|].
    reflexivity. }
  assert (seeds_save_addresses self receive_ec packet n p1 = (tt, p2, []))
    as Hsecond.
  { unfold seeds_save_addresses. rewrite Hreceive.
    rewrite (seeds_error_case_run self receive_ec p1 _ Hself1 Hrunning).
    cbn [count_ended_path set_ended_paths ended_paths_].
    destruct (Nat.eqb_spec (S (S (ended_paths_ s))) (length dns_seeds));
      [lia|].
    reflexivity. }
  unfold fields_after, calls_of.
  rewrite (seq_run _ _ _ _ _ _ _ Hfirst Hsecond). cbn [fst snd app].
  split; [|reflexivity].
  subst p2. cbn [set_seeds_heap seeds_heap].
  rewrite list_lookup_alter_eq, Hself1.
  unfold count_ended_path, set_ended_paths. cbn.
  replace (ended_paths_ s + 2) with (S (S (ended_paths_ s))) by lia.
  reflexivity.
Qed.

Lemma for_each_emit {A} (f : A → call) (xs : list A) (p : protocol) :
  for_each xs (λ x, emit (f x)) p = (tt, p, f <$> xs).
Proof.
  induction xs as [|x xs IH]; [reflexivity|].
  cbn [for_each]. exact (seq_run _ _ _ _ _ _ _ eq_refl IH).
Qed.

(** After the seeder has finished, a seed that delivers addresses still
    has them stored, and nothing else happens. *)
Lemma seeds_save_addresses_finished (self : seeds_ptr) (ec : error_code)
    (packet : address_packet) (n : channel_ptr) (p : protocol) (s : seeds) :
  seeds_heap p !! self = Some s → finished_ s = true → is_error ec = false →
  seeds_save_addresses self ec packet n p
  = (tt, p, (λ a, hosts_store a (bind_seeds_handle_store self))
            <$> addresses packet).
Proof.
  intros Hself Hdone Hok. unfold seeds_save_addresses. rewrite Hok.
  rewrite <- (app_nil_r (_ <$> _)). eapply seq_run; [apply for_each_emit|].
  unfold self_fields, mbind, M_bind, mret, M_ret, this.
  rewrite Hself. cbn [default from_option id]. rewrite Hdone. reflexivity.
Qed.

(** The failure branch of either start path calls the caller's handler,
    whatever the shared counter holds and whatever was called before. *)
Lemma handle_bootstrap_error (ec : error_code) (count_paths : atomic_counter_ptr)
    (handle_complete : caller_handler) (p : protocol) :
  is_error ec = true →
  handle_bootstrap ec count_paths handle_complete p
  = (tt, p, [completion_called handle_complete ec]).
Proof. intros Hec. unfold handle_bootstrap. by rewrite Hec. Qed.

Lemma handle_start_handshake_service_error (ec : error_code)
    (count_paths : atomic_counter_ptr) (handle_complete : caller_handler)
    (p : protocol) :
  is_error ec = true →
  handle_start_handshake_service ec count_paths handle_complete p
  = (tt, p, [completion_called handle_complete ec]).
Proof. intros Hec. unfold handle_start_handshake_service. by rewrite Hec. Qed.

(** A successful connect is appended whatever the list already holds:
    [handle_connect] reads neither its size nor its addresses. *)
Lemma handle_connect_appends (ec : error_code) (n : channel_ptr)
    (addr : network_address) (p : protocol) :
  is_error ec = false →
  connections_ (fields_after (handle_connect ec n addr) p)
  = connections_ p ++ [mk_connection_info addr n].
Proof. intros Hok. unfold handle_connect, fields_after. by rewrite Hok. Qed.

(** What does hold of [start]: one call with success, followed by [run],
    when both paths succeed ... *)
Example start_both_succeed :
  ∃ c, steps initial warm_start = Some c
    ∧ completions_of 0 (calls_made c) = [no_error]
    ∧ in_flight c
      = replicate 8 (hosts_fetch_address bind_attempt_connect)
        ++ [network_listen 8333 bind_handle_listen].
Proof. run_machine. split; reflexivity. Qed.

(** ... and one call with the error, and no [run], when one path succeeds
    and the other fails afterwards. *)
Example start_second_path_fails :
  ∃ c, steps initial
         [api_start 0; answered 0 (with_ec no_error);
          answered 1 (with_count no_error 100);
          answered 0 (with_ec service_failed)] = Some c
    ∧ completions_of 0 (calls_made c) = [service_failed]
    ∧ in_flight c = [].
Proof. run_machine. split; reflexivity. Qed.

(** C1, at the input where it fails.  [start(0)] on a fresh object, the
    load of the hosts file failing and then the start of the handshake
    service failing: the caller's handler is called twice, once with each
    error.  Neither failure branch looks at what the other path did. *)
Theorem start_completes_twice_when_both_paths_fail :
  ∃ c, steps initial both_paths_fail = Some c
    ∧ completions_of 0 (calls_made c) = [load_failed; service_failed]
    ∧ length (completions_of 0 (calls_made c)) = 2.
Proof. run_machine. split; reflexivity. Qed.

(** C2, at the input where it fails.  From a fresh object the run
    [overshoot] ends with nine entries in the outbound list of an object
    whose [max_outbound_] is 8: [handle_connect] appends without looking
    at the size, and a reposted [try_connect] counts only the connections
    made, not the attempts pending. *)
Theorem outbound_exceeds_max_outbound :
  ∃ c, steps initial overshoot = Some c
    ∧ max_outbound_ (core c) = 8
    ∧ length (connections_ (core c)) = 9
    ∧ node <$> connections_ (core c) = [1; 2; 3; 4; 5; 6; 7; 8; 9].
Proof. run_machine. split_and!; reflexivity. Qed.

(** C3, at the input where it fails.  From a fresh object the run
    [same_draw_twice] ends with two outbound entries at 10.0.0.1:8333: the
    scan of [attempt_connect] sees only the connections made, and
    [handle_connect] appends without a scan of its own. *)
Theorem outbound_holds_one_endpoint_twice :
  ∃ c, steps initial same_draw_twice = Some c
    ∧ endpoints (connections_ (core c))
      = [(ipv4 10 0 0 1, 8333%N); (ipv4 10 0 0 1, 8333%N)]
    ∧ node <$> connections_ (core c) = [1; 2]
    ∧ ¬ NoDup (endpoints (connections_ (core c))).
Proof.
  run_machine. split_and!; [reflexivity..|].
  intros Hnodup. apply NoDup_cons_1_1 in Hnodup. apply Hnodup. left.
Qed.

(** C4, at the input where it fails.  With an empty host store, the run
    [fourth_seed_delivers] has the seeder call its completion handler (the
    bootstrap path of [start], which passes the error on to the caller)
    with the third seed's connect error while the fourth seed is still
    connecting; the fourth seed then delivers two addresses, which are
    stored, and no success is ever reported. *)
Theorem seeder_reports_error_though_a_seed_delivers :
  (∃ c, steps initial three_seeds_four_errors = Some c
     ∧ completions_of 0 (calls_made c) = [timed_out]
     ∧ in_flight c
       = [handshake_start (bind_handle_start_handshake_service 0 0);
          connect "dnsseed.bitcoin.dashjr.org" 8333
            (bind_seeds_request_addresses 0)])
  ∧ ∃ c, steps initial fourth_seed_delivers = Some c
     ∧ completions_of 0 (calls_made c) = [timed_out]
     ∧ filter (λ x, is_hosts_store x = true) (calls_made c)
       = [hosts_store (peer 1) (bind_seeds_handle_store 0);
          hosts_store (peer 2) (bind_seeds_handle_store 0)]
     ∧ seeds_heap (core c) !! 0
       = Some (mk_seeds (wrap_handle_bootstrap 0 0) 4 true).
Proof.
  split; run_machine.
  - split; reflexivity.
  - split_and!; reflexivity.
Qed.

(** C9.  In the seeder, the send callback and the address callback of one
    connected seed both end in [error_case] when both report an error, and
    each adds one to [ended_paths_]: the counter counts error reports, not
    seeds.  So it can reach the size of the seed list, and the completion
    handler be called with an error, while another seed has not answered:
    in the run [three_seeds_four_errors] the first seed alone brings the
    counter to 2, two connect errors bring it to 4, the error goes to the
    caller of [start], and the connect to the fourth seed is still in
    flight. *)
Theorem one_seed_can_end_two_paths :
  (∀ (self : seeds_ptr) (send_ec receive_ec : error_code)
     (packet : address_packet) (n : channel_ptr) (p : protocol) (s : seeds),
     seeds_heap p !! self = Some s → finished_ s = false →
     is_error send_ec = true → is_error receive_ec = true →
     ended_paths_ s + 2 < length dns_seeds →
     let both := seeds_handle_send_get_address self send_ec ;;
                 seeds_save_addresses self receive_ec packet n in
     seeds_heap (fields_after both p) !! self
     = Some (set_ended_paths (ended_paths_ s + 2) s)
     ∧ calls_of both p = [])
  ∧ (∃ c, steps initial (take 6 three_seeds_four_errors) = Some c
      ∧ ended_paths_ <$> seeds_heap (core c) !! 0 = Some 2
      ∧ in_flight c
        = handshake_start (bind_handle_start_handshake_service 0 0)
          :: ((λ hostname,
                 connect hostname 8333 (bind_seeds_request_addresses 0))
              <$> drop 1 dns_seeds))
  ∧ (∃ c, steps initial three_seeds_four_errors = Some c
      ∧ seeds_heap (core c) !! 0
        = Some (mk_seeds (wrap_handle_bootstrap 0 0) (length dns_seeds) true)
      ∧ completions_of 0 (calls_made c) = [timed_out]
      ∧ is_error timed_out = true
      ∧ in_flight c
        = [handshake_start (bind_handle_start_handshake_service 0 0);
           connect "dnsseed.bitcoin.dashjr.org" 8333
             (bind_seeds_request_addresses 0)]).
Proof.
  split_and!.
  - exact one_seed_two_counts.
  - run_machine. split; reflexivity.
  - run_machine. split_and!; reflexivity.
Qed.

(** ** The theorems at concrete inputs *)

Lemma one_seed_can_end_two_paths_witness :
  seeds_heap
    (fields_after
       (seeds_handle_send_get_address 0 send_failed ;;
        seeds_save_addresses 0 receive_failed (mk_address_packet []) 1)
       seeding) !! 0
  = Some (mk_seeds (wrap_handle_bootstrap 0 0) 2 false)
  ∧ calls_of
      (seeds_handle_send_get_address 0 send_failed ;;
       seeds_save_addresses 0 receive_failed (mk_address_packet []) 1)
      seeding = [].
Proof.
  apply (proj1 one_seed_can_end_two_paths 0 send_failed receive_failed
           (mk_address_packet []) 1 seeding
           (mk_seeds (wrap_handle_bootstrap 0 0) 0 false));
    [reflexivity..|cbn; lia].
Defined.

Lemma channel_stopped_removes_and_refills_witness :
  connections_ (fields_after (channel_stopped no_error 2) two_out_two_in)
  = [mk_connection_info (peer 1) 1]
  ∧ calls_of (channel_stopped no_error 2) two_out_two_in
    = calls_of try_connect
        (set_connections (delete 1) two_out_two_in)
  ∧ calls_of (channel_stopped no_error 2) two_out_two_in
    = replicate 7 (hosts_fetch_address bind_attempt_connect).
Proof.
  apply (proj1 (channel_stopped_removes_and_refills no_error 2 two_out_two_in)
           1 (mk_connection_info (peer 2) 2)); [reflexivity..|].
  intros j c' Hj. assert (j = 0) as -> by lia.
  cbn. intros [= <-]. cbn. lia.
Defined.

Lemma channel_stopped_inbound_only_witness :
  calls_of (channel_stopped no_error 6) two_out_two_in = []
  ∧ connections_ (fields_after (channel_stopped no_error 6) two_out_two_in)
    = connections_ two_out_two_in
  ∧ ∃ acc_it,
      accepted_channels_ two_out_two_in !! acc_it = Some 6
      ∧ (∀ j, j < acc_it → accepted_channels_ two_out_two_in !! j ≠ Some 6)
      ∧ accepted_channels_
          (fields_after (channel_stopped no_error 6) two_out_two_in)
        = delete acc_it (accepted_channels_ two_out_two_in)
      ∧ length (accepted_channels_
                  (fields_after (channel_stopped no_error 6) two_out_two_in))
        = length (accepted_channels_ two_out_two_in) - 1.
Proof.
  apply (channel_stopped_inbound_only no_error 6 two_out_two_in).
  - cbn. intros Hin. apply list_elem_of_In in Hin. cbn in Hin.
    destruct Hin as [?|[?|[]]]; lia.
  - cbn. apply list_elem_of_In. cbn. auto.
Defined.

(** * Further properties of the member functions *)

(** ** The scan before a connect *)

Lemma already_connected_endpoints (addr : network_address)
    (cs : list connection_info) :
  already_connected addr cs = true ↔ (ip addr, port addr) ∈ endpoints cs.
Proof.
  unfold endpoints. induction cs as [|c cs IH]; cbn [already_connected fmap list_fmap].
  - split; [discriminate|]. intros Hin. by apply not_elem_of_nil in Hin.
  - rewrite elem_of_cons, <- IH.
    destruct (bool_decide (ip (address c) = ip addr)) eqn:Hip;
      destruct (bool_decide (port (address c) = port addr)) eqn:Hport;
      cbn [andb].
    + apply bool_decide_eq_true in Hip, Hport. rewrite Hip, Hport. tauto.
    + apply bool_decide_eq_false in Hport.
      split; [tauto|]. intros [[= _ Heq]|Hrest]; [congruence|tauto].
    + apply bool_decide_eq_false in Hip.
      split; [tauto|]. intros [[= Heq _]|Hrest]; [congruence|tauto].
    + apply bool_decide_eq_false in Hip.
      split; [tauto|]. intros [[= Heq _]|Hrest]; [congruence|tauto].
Qed.

(** What it means that [attempt_connect] issued the connect. *)
Lemma attempt_connect_passed (ec : error_code)
    (addr : network_address) (p : protocol) :
  calls_of (attempt_connect ec addr) p
  = [connect (pretty_ip (ip addr)) (port addr) (bind_handle_connect addr)] →
  is_error ec = false ∧ (ip addr, port addr) ∉ endpoints (connections_ p).
Proof.
  unfold attempt_connect, calls_of. destruct (is_error ec); [discriminate|].
  unfold mbind, M_bind, this.
  destruct (already_connected addr (connections_ p)) eqn:Hscan;
    [discriminate|].
  intros _. split; [reflexivity|]. intros Hin.
  apply already_connected_endpoints in Hin. congruence.
Qed.

(** X1.  [attempt_connect] changes no field and makes at most one call: none
    when the fetch reported an error (the vacancy is not retried), a repost
    of [try_connect] when some outbound entry has the same ip and port, and
    otherwise one connect, to the dotted quad of the address and its port,
    whose callback carries the address. *)
Theorem attempt_connect_scans_then_connects (ec : error_code)
    (addr : network_address) (p : protocol) :
  fields_after (attempt_connect ec addr) p = p
  ∧ calls_of (attempt_connect ec addr) p
    = if is_error ec then []
      else if decide ((ip addr, port addr) ∈ endpoints (connections_ p))
      then [strand_post bind_try_connect]
      else [connect (pretty_ip (ip addr)) (port addr)
              (bind_handle_connect addr)].
Proof.
  unfold attempt_connect, fields_after, calls_of.
  destruct (is_error ec); [split; reflexivity|].
  unfold mbind, M_bind, this.
  destruct (decide _) as [Hin|Hout].
  - apply already_connected_endpoints in Hin. rewrite Hin. split; reflexivity.
  - destruct (already_connected addr (connections_ p)) eqn:Hscan.
    + apply already_connected_endpoints in Hscan. contradiction.
    + split; reflexivity.
Qed.

(** X2.  When the scan of [attempt_connect] lets an address through and the
    connect is answered before the outbound list changes, the list keeps
    its endpoints pairwise different, whether the connect succeeds or not. *)
Theorem connect_right_after_scan_keeps_endpoints_distinct
    (fetch_ec connect_ec : error_code) (addr : network_address)
    (n : channel_ptr) (p : protocol) :
  NoDup (endpoints (connections_ p)) →
  calls_of (attempt_connect fetch_ec addr) p
  = [connect (pretty_ip (ip addr)) (port addr) (bind_handle_connect addr)] →
  NoDup (endpoints
           (connections_ (fields_after (handle_connect connect_ec n addr) p))).
Proof.
  intros Hdistinct Hpassed.
  destruct (attempt_connect_passed fetch_ec addr p Hpassed)
    as [_ Hfresh].
  destruct (is_error connect_ec) eqn:Hec.
  { unfold handle_connect, fields_after. rewrite Hec. exact Hdistinct. }
  rewrite (handle_connect_appends _ _ _ _ Hec).
  unfold endpoints in *. rewrite fmap_app.
  apply NoDup_app. split_and!; [exact Hdistinct| |apply NoDup_singleton].
  intros e He Hnew. apply list_elem_of_singleton in Hnew. subst e.
  exact (Hfresh He).
Qed.

(** ** Address gossip *)

(** X3.  An address packet received without error has each of its addresses
    handed to [hosts_->store], once and in the order of the packet, and
    nothing else happens; with a receive error nothing happens at all.  A
    store that later fails triggers no call and changes no field. *)
Theorem receive_address_message_stores_each (ec : error_code)
    (packet : address_packet) (from : channel_ptr) (p : protocol) :
  receive_address_message ec packet from p
  = (tt, p,
     if is_error ec then []
     else (λ a, hosts_store a bind_handle_store_address) <$> addresses packet)
  ∧ ∀ (a : network_address) (store_ec : error_code) (p' : protocol),
      (λ m, m p') <$> answer (hosts_store a bind_handle_store_address)
                        (with_ec store_ec)
      = Some (tt, p', []).
Proof.
  split; [|reflexivity].
  unfold receive_address_message. destruct (is_error ec); [reflexivity|].
  apply for_each_emit.
Qed.

(** ** Churn, seen from the other channels *)

Lemma delete_first_match {A} (P : A → Prop) `{∀ x, Decision (P x)}
    (l : list A) :
  let l' := match list_find P l with
            | Some (i, _) => delete i l
            | None => l
            end in
  filter (λ x, ¬ P x) l' = filter (λ x, ¬ P x) l
  ∧ length (filter P l') = length (filter P l) - 1.
Proof.
  induction l as [|x l [IHkeep IHcount]]; [split; reflexivity|].
  cbn [list_find]. destruct (decide (P x)) as [HP|HP].
  - cbn [delete list_delete].
    rewrite (filter_cons_False (λ x, ¬ P x)) by tauto.
    rewrite (filter_cons_True P) by exact HP.
    cbn [length]. split; [reflexivity|lia].
  - rewrite (filter_cons_True (λ x, ¬ P x) x l) by exact HP.
    rewrite (filter_cons_False P x l) by exact HP.
    destruct (list_find P l) as [[i y]|]; cbn [fmap option_fmap option_map
      prod_map fst snd id delete list_delete];
      lazy beta iota zeta in IHkeep, IHcount.
    + rewrite (filter_cons_True (λ x, ¬ P x)) by exact HP.
      rewrite (filter_cons_False P) by exact HP.
      split; [f_equal; exact IHkeep|exact IHcount].
    + rewrite (filter_cons_True (λ x, ¬ P x)) by exact HP.
      rewrite (filter_cons_False P) by exact HP.
      split; [reflexivity|exact IHcount].
Qed.

(** X4.  [channel_stopped] never touches the entry of another channel: in
    both lists the entries of the other channels stay, in their order; the
    stopped channel loses one occurrence in each list (if it has one); and
    every other field is left as it was. *)
Theorem channel_stopped_spares_other_channels (ec : error_code)
    (which_node : channel_ptr) (p : protocol) :
  let p' := fields_after (channel_stopped ec which_node) p in
  filter (λ c, node c ≠ which_node) (connections_ p')
  = filter (λ c, node c ≠ which_node) (connections_ p)
  ∧ filter (λ n, n ≠ which_node) (accepted_channels_ p')
    = filter (λ n, n ≠ which_node) (accepted_channels_ p)
  ∧ length (filter (λ c, node c = which_node) (connections_ p'))
    = length (filter (λ c, node c = which_node) (connections_ p)) - 1
  ∧ length (filter (λ n, n = which_node) (accepted_channels_ p'))
    = length (filter (λ n, n = which_node) (accepted_channels_ p)) - 1
  ∧ (hosts_filename_ p', max_outbound_ p', load_seeds_ p', seeds_heap p',
     counter_heap p')
    = (hosts_filename_ p, max_outbound_ p, load_seeds_ p, seeds_heap p,
       counter_heap p).
Proof.
  intros p'. subst p'. unfold fields_after. rewrite channel_stopped_run.
  cbn zeta. cbn [fst snd].
  pose proof (delete_first_match (λ c, node c = which_node) (connections_ p))
    as [Hout_keep Hout_count].
  pose proof (delete_first_match (λ n, n = which_node) (accepted_channels_ p))
    as [Hin_keep Hin_count].
  cbn zeta in *.
  destruct (list_find _ (connections_ p)) as [[it c]|];
    cbn [set_connections accepted_channels_ connections_];
    destruct (list_find _ (accepted_channels_ p)) as [[acc_it a]|];
    cbn; split_and!; done.
Qed.

(** ** The bootstrap path *)

Lemma run_run (p : protocol) :
  run p
  = (tt, p,
     replicate (max_outbound_ p - length (connections_ p))
       (hosts_fetch_address bind_attempt_connect)
     ++ [network_listen 8333 bind_handle_listen]).
Proof.
  unfold run. exact (seq_run _ _ _ _ _ _ _ (try_connect_run p) eq_refl).
Qed.

(** Calling a completion handler never creates or changes a seeder object. *)
Lemma invoke_keeps_seeds (h : completion_handler) (ec : error_code)
    (p : protocol) :
  seeds_heap (fields_after (invoke h ec) p) = seeds_heap p
  ∧ load_seeds_ (fields_after (invoke h ec) p) = load_seeds_ p.
Proof.
  unfold fields_after.
  destruct h as [|handle_complete|count_paths handle_complete];
    [split; reflexivity..|].
  cbn [invoke]. unfold handle_bootstrap.
  destruct (is_error ec); [split; reflexivity|].
  unfold counter_increment, mbind, M_bind, modify, this. cbn [fst snd].
  destruct (counter_value _ _ =? 2); [|split; reflexivity].
  unfold emit. rewrite run_run. split; reflexivity.
Qed.

Lemma alter_last {A} (f : A → A) (l : list A) (x : A) :
  alter f (length l) (l ++ [x]) = l ++ [f x].
Proof.
  pose proof (alter_app_r f l [x] 0) as Hlast.
  rewrite Nat.add_0_r in Hlast. exact Hlast.
Qed.

Lemma seeds_start_run (self : seeds_ptr) (handle_complete : completion_handler)
    (p : protocol) :
  seeds_start self handle_complete p
  = (tt,
     set_seeds_heap
       (λ objs, alter (set_finished false) self
                  (alter (set_ended_paths 0) self
                     (alter (set_handle_complete handle_complete) self objs)))
       p,
     (λ hostname, connect hostname 8333 (bind_seeds_request_addresses self))
     <$> dns_seeds).
Proof.
  unfold seeds_start, self_modify.
  eapply (seq_run _ _ _ _ _ [] _ eq_refl).
  eapply (seq_run _ _ _ _ _ [] _ eq_refl).
  eapply (seq_run _ _ _ _ _ [] _ eq_refl).
  exact (for_each_emit
           (λ hostname,
              connect hostname 8333 (bind_seeds_request_addresses self))
           dns_seeds _).
Qed.

(** X5.  [if_0_seed] starts a seeder exactly when the count arrived without
    error and is zero: a new object goes to the end of the heap, holding
    the handler, a counter at 0 and [finished_] false, [load_seeds_] points
    to it, and one connect per DNS seed is issued on port 8333, in the order
    of the list, each bound to the new object.  In every other case the
    handler is called (with the error, or with success for a non-empty
    store), and that call creates no seeder object. *)
Theorem if_0_seed_seeds_an_empty_store (ec : error_code) (hosts_count : nat)
    (handle_complete : completion_handler) (p : protocol) :
  if_0_seed ec hosts_count handle_complete p
  = (if is_error ec then invoke handle_complete ec p
     else if hosts_count =? 0 then
       (tt,
        set_load_seeds (Some (length (seeds_heap p)))
          (set_seeds_heap (λ objs, objs ++ [mk_seeds handle_complete 0 false])
             p),
        (λ hostname,
           connect hostname 8333
             (bind_seeds_request_addresses (length (seeds_heap p))))
        <$> dns_seeds)
     else invoke handle_complete no_error p)
  ∧ ∀ ec', seeds_heap (fields_after (invoke handle_complete ec') p)
           = seeds_heap p
           ∧ load_seeds_ (fields_after (invoke handle_complete ec') p)
             = load_seeds_ p.
Proof.
  split; [|intros ec'; apply invoke_keeps_seeds].
  unfold if_0_seed. destruct (is_error ec); [reflexivity|].
  destruct (hosts_count =? 0); [|reflexivity].
  unfold mbind at 1, M_bind at 1, this. cbn beta iota zeta.
  rewrite (seq_run _ _ _ _ _ _ _ eq_refl
             (seq_run _ _ _ _ _ _ _ eq_refl (seeds_start_run _ _ _))).
  cbn [modify set_seeds_heap set_load_seeds seeds_heap load_seeds_
       hosts_filename_ max_outbound_ connections_ accepted_channels_
       counter_heap app fst snd].
  unfold set_seeds_heap, set_load_seeds.
  cbn [seeds_heap load_seeds_ hosts_filename_ max_outbound_ connections_
       accepted_channels_ counter_heap].
  rewrite !alter_last. reflexivity.
Qed.

(** ** The two paths of [start] meeting at the counter *)

Lemma counter_value_incremented (c : atomic_counter_ptr) (k : nat)
    (p : protocol) :
  counter_heap p !! c = Some k →
  counter_heap (set_counter_heap (alter S c) p) !! c = Some (S k).
Proof. intros Hc. cbn. by rewrite list_lookup_alter_eq, Hc. Qed.

(** A path that succeeded: the counter goes up by one, and the path that
    brings it to 2 reports success and runs [run]. *)
Lemma handle_bootstrap_success (ec : error_code) (c : atomic_counter_ptr)
    (h : caller_handler) (k : nat) (p : protocol) :
  is_error ec = false → counter_heap p !! c = Some k →
  handle_bootstrap ec c h p
  = (tt, set_counter_heap (alter S c) p,
     if S k =? 2 then
       completion_called h no_error
       :: replicate (max_outbound_ p - length (connections_ p))
            (hosts_fetch_address bind_attempt_connect)
          ++ [network_listen 8333 bind_handle_listen]
     else []).
Proof.
  intros Hok Hc. unfold handle_bootstrap. rewrite Hok.
  unfold counter_increment, mbind, M_bind, modify, this, counter_value.
  rewrite (counter_value_incremented c k p Hc). cbn [default from_option id].
  destruct (S k =? 2); [|reflexivity].
  unfold emit. rewrite run_run. reflexivity.
Qed.

Lemma handle_start_handshake_service_success (ec : error_code)
    (c : atomic_counter_ptr) (h : caller_handler) (k : nat) (p : protocol) :
  is_error ec = false → counter_heap p !! c = Some k →
  handle_start_handshake_service ec c h p
  = (tt, set_counter_heap (alter S c) p,
     if S k =? 2 then
       completion_called h no_error
       :: replicate (max_outbound_ p - length (connections_ p))
            (hosts_fetch_address bind_attempt_connect)
          ++ [network_listen 8333 bind_handle_listen]
     else []).
Proof. exact (handle_bootstrap_success ec c h k p). Qed.

(** X6.  The two completion paths of one [start], meeting at a counter that
    is still 0, in either order: a path that failed reports its error to
    the caller at once; success is reported, followed by [run] (one
    [fetch_address] per vacancy, then [listen] on 8333), only by the second
    path and only when neither failed; when one path failed, the success of
    the other is never reported and [run] never starts. *)
Theorem start_paths_join (boot_ec service_ec : error_code)
    (c : atomic_counter_ptr) (h : caller_handler) (p : protocol) :
  counter_heap p !! c = Some 0 →
  let started :=
    completion_called h no_error
    :: replicate (max_outbound_ p - length (connections_ p))
         (hosts_fetch_address bind_attempt_connect)
       ++ [network_listen 8333 bind_handle_listen] in
  let outcome (first second : error_code) :=
    (if is_error first then [completion_called h first] else [])
    ++ (if is_error second then [completion_called h second]
        else if is_error first then [] else started) in
  calls_of (handle_bootstrap boot_ec c h ;;
            handle_start_handshake_service service_ec c h) p
  = outcome boot_ec service_ec
  ∧ calls_of (handle_start_handshake_service service_ec c h ;;
              handle_bootstrap boot_ec c h) p
    = outcome service_ec boot_ec.
Proof.
  intros Hc started outcome. subst outcome started. cbn beta.
  unfold calls_of.
  pose proof (counter_value_incremented c 0 p Hc) as Hc1.
  destruct (is_error boot_ec) eqn:Hboot;
    destruct (is_error service_ec) eqn:Hservice.
  - rewrite (seq_run _ _ _ _ _ _ _
               (handle_bootstrap_error _ c h p Hboot)
               (handle_start_handshake_service_error _ c h p Hservice)).
    rewrite (seq_run _ _ _ _ _ _ _
               (handle_start_handshake_service_error _ c h p Hservice)
               (handle_bootstrap_error _ c h p Hboot)).
    split; reflexivity.
  - rewrite (seq_run _ _ _ _ _ _ _
               (handle_bootstrap_error _ c h p Hboot)
               (handle_start_handshake_service_success _ c h 0 p Hservice Hc)).
    rewrite (seq_run _ _ _ _ _ _ _
               (handle_start_handshake_service_success _ c h 0 p Hservice Hc)
               (handle_bootstrap_error _ c h _ Hboot)).
    split; reflexivity.
  - rewrite (seq_run _ _ _ _ _ _ _
               (handle_bootstrap_success _ c h 0 p Hboot Hc)
               (handle_start_handshake_service_error _ c h _ Hservice)).
    rewrite (seq_run _ _ _ _ _ _ _
               (handle_start_handshake_service_error _ c h p Hservice)
               (handle_bootstrap_success _ c h 0 p Hboot Hc)).
    split; reflexivity.
  - rewrite (seq_run _ _ _ _ _ _ _
               (handle_bootstrap_success _ c h 0 p Hboot Hc)
               (handle_start_handshake_service_success _ c h 1 _ Hservice Hc1)).
    rewrite (seq_run _ _ _ _ _ _ _
               (handle_start_handshake_service_success _ c h 0 p Hservice Hc)
               (handle_bootstrap_success _ c h 1 _ Hboot Hc1)).
    split; reflexivity.
Qed.

Lemma start_paths_join_witness :
  calls_of (handle_bootstrap no_error 0 0 ;;
            handle_start_handshake_service service_failed 0 0) seeding
  = [completion_called 0 service_failed]
  ∧ calls_of (handle_start_handshake_service service_failed 0 0 ;;
              handle_bootstrap no_error 0 0) seeding
    = [completion_called 0 service_failed].
Proof.
  exact (start_paths_join no_error service_failed 0 0 seeding eq_refl).
Defined.

Lemma connect_right_after_scan_keeps_endpoints_distinct_witness :
  NoDup (endpoints
           (connections_
              (fields_after (handle_connect no_error 3 (peer 3))
                 two_out_two_in))).
Proof.
  apply (connect_right_after_scan_keeps_endpoints_distinct no_error no_error
           (peer 3) 3 two_out_two_in); [|reflexivity].
  apply (bool_decide_unpack _). vm_compute. exact I.
Defined.

(** ** A whole run of the seeder *)

Lemma completions_of_app (h : caller_handler) (xs ys : list call) :
  completions_of h (xs ++ ys) = completions_of h xs ++ completions_of h ys.
Proof. apply omap_app. Qed.

Lemma completions_of_called (h : caller_handler) (codes : list error_code) :
  completions_of h (completion_called h <$> codes) = codes.
Proof.
  induction codes as [|ec codes IH]; [reflexivity|].
  cbn. destruct (decide (h = h)); [|done]. f_equal. exact IH.
Qed.

Lemma requests_after_no_completion (h : caller_handler) (self : seeds_ptr)
    (r : seed_reply) :
  completions_of h (requests_after self r) = [].
Proof.
  destruct r as [ec n|ec|ec packet n|ec]; cbn [requests_after];
    try reflexivity; destruct (is_error ec); try reflexivity.
  induction (addresses packet) as [|a l IH]; [reflexivity|exact IH].
Qed.

(** One callback of the seeder against [seeder_next]. *)
Lemma seeds_deliver_step (self : seeds_ptr) (h : caller_handler)
    (r : seed_reply) (ended : nat) (finished : bool) (p : protocol) :
  seeds_heap p !! self = Some (mk_seeds (from_caller h) ended finished) →
  ∃ p',
    seeds_deliver self r p
    = (tt, p',
       requests_after self r
       ++ (completion_called h <$> (seeder_next (ended, finished) r).2))
    ∧ seeds_heap p' !! self
      = Some (mk_seeds (from_caller h) (seeder_next (ended, finished) r).1.1
                (seeder_next (ended, finished) r).1.2).
Proof.
  intros Hself.
  assert (∀ ec, is_error ec = true →
            ∃ p', seeds_error_case self ec p
                  = (tt, p',
                     completion_called h
                     <$> (if finished then []
                          else if S ended =? length dns_seeds then [ec]
                          else []))
                  ∧ seeds_heap p' !! self
                    = Some (mk_seeds (from_caller h)
                              (if finished then ended else S ended)
                              (if finished then true
                               else S ended =? length dns_seeds)))
    as Herror.
  { intros ec _. destruct finished.
    - exists p. split; [|exact Hself].
      exact (seeds_error_case_finished self ec p _ Hself eq_refl).
    - rewrite (seeds_error_case_run self ec p _ Hself eq_refl).
      cbn [ended_paths_ handle_complete_ invoke].
      destruct (S ended =? length dns_seeds); eexists; (split; [reflexivity|]);
        cbn [fields_after emit fst snd set_seeds_heap seeds_heap];
        rewrite ?list_lookup_alter_eq, Hself; reflexivity. }
  destruct r as [ec n|ec|ec packet n|ec]; cbn [seeds_deliver].
  - unfold seeds_request_addresses, seeder_next.
    cbn [delivers reported_error requests_after].
    destruct (is_error ec) eqn:Hec.
    + destruct (Herror ec Hec) as (p' & -> & Hself'). exists p'.
      destruct finished; [split; [reflexivity|exact Hself']|].
      destruct (S ended =? length dns_seeds);
        (split; [reflexivity|exact Hself']).
    + exists p. destruct finished; (split; [reflexivity|exact Hself]).
  - unfold seeds_handle_send_get_address, seeder_next.
    cbn [delivers reported_error requests_after].
    destruct (is_error ec) eqn:Hec.
    + destruct (Herror ec Hec) as (p' & -> & Hself'). exists p'.
      destruct finished; [split; [reflexivity|exact Hself']|].
      destruct (S ended =? length dns_seeds);
        (split; [reflexivity|exact Hself']).
    + exists p. destruct finished; (split; [reflexivity|exact Hself]).
  - unfold seeder_next. cbn [delivers reported_error requests_after].
    destruct (is_error ec) eqn:Hec.
    + unfold seeds_save_addresses. rewrite Hec.
      destruct (Herror ec Hec) as (p' & -> & Hself'). exists p'.
      destruct finished; [split; [reflexivity|exact Hself']|].
      cbn [negb].
      destruct (S ended =? length dns_seeds);
        (split; [reflexivity|exact Hself']).
    + cbn [negb]. destruct finished.
      * exists p. split; [|exact Hself].
        rewrite (seeds_save_addresses_finished self ec packet n p _ Hself
                   eq_refl Hec).
        by rewrite app_nil_r.
      * eexists. split.
        -- unfold seeds_save_addresses. rewrite Hec.
           eapply seq_run; [apply for_each_emit|].
           unfold self_fields, self_modify, mbind, M_bind, mret, M_ret, this,
             modify.
           rewrite Hself. cbn [default from_option id finished_ negb].
           cbn [set_seeds_heap seeds_heap].
           rewrite !list_lookup_alter_eq, Hself.
           reflexivity.
        -- cbn [set_seeds_heap seeds_heap].
           rewrite !list_lookup_alter_eq, Hself. reflexivity.
  - exists p. unfold seeder_next. cbn [delivers reported_error requests_after].
    destruct finished; (split; [reflexivity|exact Hself]).
Qed.

Lemma requests_after_not_completions (self : seeds_ptr) (r : seed_reply) :
  filter (λ c, is_completion_called c = false) (requests_after self r)
  = requests_after self r.
Proof.
  destruct r as [ec n|ec|ec packet n|ec]; cbn [requests_after];
    try reflexivity; destruct (is_error ec); try reflexivity.
  induction (addresses packet) as [|a l IH]; [reflexivity|].
  cbn [fmap list_fmap]. rewrite filter_cons_True by reflexivity.
  f_equal. exact IH.
Qed.

Lemma called_all_completions (h : caller_handler) (codes : list error_code) :
  filter (λ c, is_completion_called c = false) (completion_called h <$> codes)
  = [].
Proof.
  induction codes as [|ec codes IH]; [reflexivity|].
  cbn [fmap list_fmap]. rewrite filter_cons_False by (cbn; congruence).
  exact IH.
Qed.

(** The callbacks of a run against [seeder_codes]. *)
Lemma seeds_deliver_all (self : seeds_ptr) (h : caller_handler)
    (rs : list seed_reply) (ended : nat) (finished : bool) (p : protocol) :
  seeds_heap p !! self = Some (mk_seeds (from_caller h) ended finished) →
  ∃ p' out,
    for_each rs (seeds_deliver self) p = (tt, p', out)
    ∧ completions_of h out = seeder_codes (ended, finished) rs
    ∧ filter (λ c, is_completion_called c = false) out
      = flat_map (requests_after self) rs.
Proof.
  revert ended finished p.
  induction rs as [|r rs IH]; intros ended finished p Hself.
  - exists p, []. split_and!; reflexivity.
  - destruct (seeds_deliver_step self h r ended finished p Hself)
      as (p1 & Hstep & Hself1).
    destruct (seeder_next (ended, finished) r) as [[ended1 finished1] codes]
      eqn:Hnext.
    cbn [fst snd] in Hstep, Hself1.
    destruct (IH ended1 finished1 p1 Hself1) as (p2 & out & Hrest & Hcodes & Hreq).
    exists p2, ((requests_after self r ++ (completion_called h <$> codes)) ++ out).
    split_and!.
    + cbn [for_each]. exact (seq_run _ _ _ _ _ _ _ Hstep Hrest).
    + cbn [seeder_codes]. rewrite Hnext, !completions_of_app, Hcodes.
      by rewrite requests_after_no_completion, completions_of_called.
    + cbn [flat_map]. rewrite !filter_app, Hreq.
      by rewrite requests_after_not_completions, called_all_completions,
        app_nil_r.
Qed.

(** A whole run, from [start] on an existing object. *)
Lemma seeding_run_codes (self : seeds_ptr) (h : caller_handler)
    (rs : list seed_reply) (p : protocol) :
  is_Some (seeds_heap p !! self) →
  completions_of h (calls_of (seeding_run self (from_caller h) rs) p)
  = seeder_codes (0, false) rs
  ∧ filter (λ c, is_completion_called c = false)
      (calls_of (seeding_run self (from_caller h) rs) p)
    = ((λ hostname, connect hostname 8333 (bind_seeds_request_addresses self))
       <$> dns_seeds)
      ++ flat_map (requests_after self) rs.
Proof.
  intros [s0 Hself].
  pose proof (seeds_start_run self (from_caller h) p) as Hstart.
  match type of Hstart with _ = (_, ?x, _) => set (p1 := x) in * end.
  assert (seeds_heap p1 !! self = Some (mk_seeds (from_caller h) 0 false))
    as Hself1.
  { subst p1. cbn [set_seeds_heap seeds_heap].
    rewrite !list_lookup_alter_eq, Hself. reflexivity. }
  destruct (seeds_deliver_all self h rs 0 false p1 Hself1)
    as (p2 & out & Hrest & Hcodes & Hreq).
  unfold calls_of, seeding_run.
  rewrite (seq_run _ _ _ _ _ _ _ Hstart Hrest). cbn [snd].
  split.
  - rewrite completions_of_app, Hcodes. reflexivity.
  - rewrite filter_app, Hreq. reflexivity.
Qed.

(** *** The bookkeeping on its own *)

Lemma seeder_codes_finished (ended : nat) (rs : list seed_reply) :
  seeder_codes (ended, true) rs = [].
Proof. induction rs as [|r rs IH]; [reflexivity|exact IH]. Qed.

Lemma seeder_codes_at_most_one (st : nat * bool) (rs : list seed_reply) :
  length (seeder_codes st rs) ≤ 1.
Proof.
  revert st. induction rs as [|r rs IH]; intros [ended finished];
    [cbn; lia|].
  cbn [seeder_codes seeder_next]. destruct finished; [apply IH|].
  destruct (delivers r).
  { rewrite seeder_codes_finished. cbn. lia. }
  destruct (reported_error r) as [ec|]; [|apply IH].
  destruct (S ended =? length dns_seeds); [|apply IH].
  rewrite seeder_codes_finished. cbn. lia.
Qed.

Lemma seeder_codes_delivery (ended : nat) (rs : list seed_reply) :
  existsb delivers rs = true →
  length (seeder_codes (ended, false) rs) = 1.
Proof.
  revert ended. induction rs as [|r rs IH]; intros ended; [discriminate|].
  cbn [existsb seeder_codes seeder_next]. destruct (delivers r).
  { intros _. rewrite seeder_codes_finished. reflexivity. }
  cbn [orb]. intros Hlater.
  destruct (reported_error r) as [ec|]; [|exact (IH ended Hlater)].
  destruct (S ended =? length dns_seeds); [|exact (IH (S ended) Hlater)].
  rewrite seeder_codes_finished. reflexivity.
Qed.

Lemma seeder_codes_errors_only (ended : nat) (rs : list seed_reply) :
  existsb delivers rs = false → ended < length dns_seeds →
  seeder_codes (ended, false) rs
  = take 1 (drop (length dns_seeds - 1 - ended) (error_reports rs)).
Proof.
  change (length dns_seeds) with 4.
  revert ended. induction rs as [|r rs IH]; intros ended Hnone Hroom.
  { unfold error_reports. cbn [omap list_omap]. by rewrite drop_nil. }
  cbn [existsb] in Hnone. apply orb_false_iff in Hnone as [Hr Hrs].
  cbn [seeder_codes seeder_next]. rewrite Hr.
  unfold error_reports. cbn [omap list_omap].
  fold (error_reports rs).
  destruct (reported_error r) as [ec|]; [|exact (IH ended Hrs Hroom)].
  change (length dns_seeds) with 4.
  destruct (Nat.eqb_spec (S ended) 4) as [Hfourth|Hnot].
  - rewrite seeder_codes_finished.
    replace (4 - 1 - ended) with 0 by lia. reflexivity.
  - rewrite (IH (S ended) Hrs) by lia.
    replace (4 - 1 - ended) with (S (4 - 1 - S ended)) by lia. reflexivity.
Qed.

Lemma seeder_codes_first_delivery (ended : nat)
    (before after : list seed_reply) (r : seed_reply) :
  existsb delivers before = false → delivers r = true →
  ended + length (error_reports before) < length dns_seeds →
  seeder_codes (ended, false) (before ++ r :: after) = [no_error].
Proof.
  change (length dns_seeds) with 4.
  revert ended. induction before as [|b before IH]; intros ended Hnone Hr Hroom.
  { cbn [app seeder_codes seeder_next]. rewrite Hr.
    by rewrite seeder_codes_finished. }
  cbn [existsb] in Hnone. apply orb_false_iff in Hnone as [Hb Hbefore].
  cbn [app seeder_codes seeder_next]. rewrite Hb.
  unfold error_reports in Hroom. cbn [omap list_omap] in Hroom.
  fold (error_reports before) in Hroom.
  destruct (reported_error b) as [ec|].
  - cbn [length] in Hroom. change (length dns_seeds) with 4.
    destruct (Nat.eqb_spec (S ended) 4) as [Hfourth|Hnot]; [lia|].
    apply IH; [exact Hbefore|exact Hr|lia].
  - apply IH; [exact Hbefore|exact Hr|exact Hroom].
Qed.

(** *** What the caller of the seeder sees *)

(** X7.  Whatever callbacks arrive and in whatever order, a seeder started
    on its object calls its completion handler at most once; and if any of
    the callbacks hands over addresses, it calls it exactly once. *)
Theorem seeder_completes_at_most_once (self : seeds_ptr) (h : caller_handler)
    (rs : list seed_reply) (p : protocol) :
  is_Some (seeds_heap p !! self) →
  let codes :=
    completions_of h (calls_of (seeding_run self (from_caller h) rs) p) in
  length codes ≤ 1
  ∧ (existsb delivers rs = true → length codes = 1).
Proof.
  intros Hself codes. subst codes.
  rewrite (proj1 (seeding_run_codes self h rs p Hself)).
  split; [apply seeder_codes_at_most_one|apply seeder_codes_delivery].
Qed.

(** X8.  When no callback hands over addresses, the completion handler is
    called if and only if at least as many errors were reported as there
    are DNS seeds, and then once, with the code of the report that made the
    count: connect, send and receive errors count alike, store errors do
    not count. *)
Theorem seeder_fails_on_the_fourth_error_report (self : seeds_ptr)
    (h : caller_handler) (rs : list seed_reply) (p : protocol) :
  is_Some (seeds_heap p !! self) →
  existsb delivers rs = false →
  completions_of h (calls_of (seeding_run self (from_caller h) rs) p)
  = take 1 (drop (length dns_seeds - 1) (error_reports rs)).
Proof.
  intros Hself Hnone.
  rewrite (proj1 (seeding_run_codes self h rs p Hself)).
  rewrite (seeder_codes_errors_only 0 rs Hnone) by (cbn; lia).
  by rewrite Nat.sub_0_r.
Qed.

(** X9.  The first callback that hands over addresses makes the seeder
    report success, provided fewer errors than there are DNS seeds were
    reported before it; nothing that arrives afterwards is reported. *)
Theorem seeder_first_delivery_wins (self : seeds_ptr) (h : caller_handler)
    (before after : list seed_reply) (r : seed_reply) (p : protocol) :
  is_Some (seeds_heap p !! self) →
  existsb delivers before = false → delivers r = true →
  length (error_reports before) < length dns_seeds →
  completions_of h
    (calls_of (seeding_run self (from_caller h) (before ++ r :: after)) p)
  = [no_error].
Proof.
  intros Hself Hnone Hr Hroom.
  rewrite (proj1 (seeding_run_codes self h _ p Hself)).
  by apply seeder_codes_first_delivery.
Qed.

(** X10.  Apart from calling its completion handler, a seeder makes these
    calls and no other: one connect per DNS seed at the start, then for
    every seed that connects a send of [get_address] and an address
    subscription, and for every packet that arrives without error one store
    per address, in order.  This does not depend on the counter or on
    [finished_]: addresses that arrive after completion are stored too. *)
Theorem seeder_stores_every_delivery (self : seeds_ptr) (h : caller_handler)
    (rs : list seed_reply) (p : protocol) :
  is_Some (seeds_heap p !! self) →
  filter (λ c, is_completion_called c = false)
    (calls_of (seeding_run self (from_caller h) rs) p)
  = ((λ hostname, connect hostname 8333 (bind_seeds_request_addresses self))
     <$> dns_seeds)
    ++ flat_map (requests_after self) rs.
Proof. intros Hself. exact (proj2 (seeding_run_codes self h rs p Hself)). Qed.

Lemma idle_seeder_has_object : is_Some (seeds_heap idle_seeder !! 0).
Proof. by eexists. Defined.

Lemma seeder_completes_at_most_once_witness :
  length (completions_of 7
            (calls_of (seeding_run 0 (from_caller 7) three_errors_then_delivery)
               idle_seeder)) ≤ 1
  ∧ length (completions_of 7
              (calls_of
                 (seeding_run 0 (from_caller 7) three_errors_then_delivery)
                 idle_seeder)) = 1.
Proof.
  destruct (seeder_completes_at_most_once 0 7 three_errors_then_delivery
              idle_seeder idle_seeder_has_object) as [Hmost Hone].
  split; [exact Hmost|exact (Hone eq_refl)].
Defined.

Lemma seeder_fails_on_the_fourth_error_report_witness :
  completions_of 7
    (calls_of (seeding_run 0 (from_caller 7) four_errors) idle_seeder)
  = [receive_failed].
Proof.
  exact (seeder_fails_on_the_fourth_error_report 0 7 four_errors idle_seeder
           idle_seeder_has_object eq_refl).
Defined.

Lemma seeder_first_delivery_wins_witness :
  completions_of 7
    (calls_of (seeding_run 0 (from_caller 7) three_errors_then_delivery)
       idle_seeder)
  = [no_error].
Proof.
  apply (seeder_first_delivery_wins 0 7
           [connect_answered refused 0; connect_answered timed_out 0;
            connect_answered no_error 1; send_answered send_failed]
           [connect_answered refused 0]
           (addresses_answered no_error (mk_address_packet [peer 1; peer 2]) 1)
           idle_seeder idle_seeder_has_object); [reflexivity..|cbn; lia].
Defined.

Lemma seeder_stores_every_delivery_witness :
  filter (λ c, is_completion_called c = false)
    (calls_of (seeding_run 0 (from_caller 7) three_errors_then_delivery)
       idle_seeder)
  = ((λ hostname, connect hostname 8333 (bind_seeds_request_addresses 0))
     <$> dns_seeds)
    ++ [channel_send 1 get_address (bind_seeds_handle_send_get_address 0);
        channel_subscribe_address 1 (bind_seeds_save_addresses 0 1);
        hosts_store (peer 1) (bind_seeds_handle_store 0);
        hosts_store (peer 2) (bind_seeds_handle_store 0)].
Proof.
  exact (seeder_stores_every_delivery 0 7 three_errors_then_delivery
           idle_seeder idle_seeder_has_object).
Defined.

(** * The machine, step by step *)

(** ** Computations that add to neither list *)

Lemma shrinks_refl (p : protocol) : shrinks p p.
Proof. by split_and!. Qed.

Lemma shrinks_trans (p1 p2 p3 : protocol) :
  shrinks p1 p2 → shrinks p2 p3 → shrinks p1 p3.
Proof.
  intros (Hf1 & Hm1 & Hc1 & Ha1) (Hf2 & Hm2 & Hc2 & Ha2).
  split_and!; [congruence|congruence|by etrans|by etrans].
Qed.

Lemma quiet_ret {A} (a : A) : quiet (mret a).
Proof. intros p. split; [apply shrinks_refl|constructor]. Qed.

Lemma quiet_skip : quiet skip.
Proof. apply quiet_ret. Qed.

Lemma quiet_this : quiet this.
Proof. intros p. split; [apply shrinks_refl|constructor]. Qed.

Lemma quiet_emit (c : call) : arms c = false → quiet (emit c).
Proof. intros Hc p. split; [apply shrinks_refl|by repeat constructor]. Qed.

Lemma quiet_modify (f : protocol → protocol) :
  (∀ p, shrinks p (f p)) → quiet (modify f).
Proof. intros Hf p. split; [apply Hf|constructor]. Qed.

Lemma quiet_bind {A B} (m : M A) (k : A → M B) :
  quiet m → (∀ a, quiet (k a)) → quiet (m ≫= k).
Proof.
  intros Hm Hk p. unfold mbind, M_bind.
  specialize (Hm p). destruct (m p) as [[a p1] out1]. cbn [fst snd] in Hm.
  specialize (Hk a p1). destruct (k a p1) as [[b p2] out2].
  cbn [fst snd] in *. destruct Hm as [Hs1 Ho1], Hk as [Hs2 Ho2].
  split; [by eapply shrinks_trans|by apply Forall_app].
Qed.

Lemma quiet_for_each {A} (xs : list A) (body : A → M unit) :
  (∀ x, quiet (body x)) → quiet (for_each xs body).
Proof.
  intros Hbody. induction xs as [|x xs IH]; [apply quiet_skip|].
  cbn [for_each]. apply quiet_bind; [apply Hbody|intros _; exact IH].
Qed.

Lemma quiet_for_rounds (rounds i hi : nat) (body : nat → M unit) :
  (∀ j, quiet (body j)) → quiet (for_rounds rounds i hi body).
Proof.
  intros Hbody. revert i. induction rounds as [|r IH]; intros i;
    [apply quiet_skip|].
  cbn [for_rounds]. destruct (i <? hi); [|apply quiet_skip].
  apply quiet_bind; [apply Hbody|intros _; apply IH].
Qed.

Create HintDb quiet.

#[local] Hint Resolve quiet_ret quiet_skip quiet_this quiet_for_each
  quiet_for_rounds shrinks_refl : quiet.
#[local] Hint Extern 1 (quiet (emit _)) =>
  apply quiet_emit; reflexivity : quiet.
#[local] Hint Extern 1 (quiet (modify _)) =>
  apply quiet_modify; intros ?; split_and!; cbn;
  first [reflexivity | apply sublist_delete] : quiet.
#[local] Hint Extern 2 (quiet (_ ≫= _)) =>
  apply quiet_bind; [|intros ?] : quiet.
#[local] Hint Extern 3 (quiet (if ?b then _ else _)) => destruct b : quiet.
#[local] Hint Extern 3 (quiet (match ?x with _ => _ end)) =>
  destruct x : quiet.

Ltac quiet_by_parts := eauto 20 with quiet.

Lemma quiet_try_connect : quiet try_connect.
Proof. unfold try_connect, for_lt. quiet_by_parts. Qed.
#[local] Hint Resolve quiet_try_connect : quiet.

Lemma quiet_run : quiet run.
Proof. unfold run. quiet_by_parts. Qed.
#[local] Hint Resolve quiet_run : quiet.

Lemma quiet_handle_bootstrap (ec : error_code) (c : atomic_counter_ptr)
    (h : caller_handler) : quiet (handle_bootstrap ec c h).
Proof. unfold handle_bootstrap, counter_increment. quiet_by_parts. Qed.

Lemma quiet_handle_start_handshake_service (ec : error_code)
    (c : atomic_counter_ptr) (h : caller_handler) :
  quiet (handle_start_handshake_service ec c h).
Proof. exact (quiet_handle_bootstrap ec c h). Qed.
#[local] Hint Resolve quiet_handle_bootstrap
  quiet_handle_start_handshake_service : quiet.

Lemma quiet_invoke (h : completion_handler) (ec : error_code) :
  quiet (invoke h ec).
Proof. destruct h; cbn [invoke]; quiet_by_parts. Qed.
#[local] Hint Resolve quiet_invoke : quiet.

Lemma quiet_seeds_error_case (self : seeds_ptr) (ec : error_code) :
  quiet (seeds_error_case self ec).
Proof.
  unfold seeds_error_case, self_fields, self_modify. quiet_by_parts.
Qed.
#[local] Hint Resolve quiet_seeds_error_case : quiet.

Lemma quiet_seeds_start (self : seeds_ptr) (h : completion_handler) :
  quiet (seeds_start self h).
Proof.
  unfold seeds_start, self_modify, seeds_connect_dns_seed. quiet_by_parts.
Qed.
#[local] Hint Resolve quiet_seeds_start : quiet.

Lemma quiet_channel_stopped (ec : error_code) (which_node : channel_ptr) :
  quiet (channel_stopped ec which_node).
Proof. unfold channel_stopped. quiet_by_parts. Qed.
#[local] Hint Resolve quiet_channel_stopped : quiet.

(** ** Every handler, by what it does to the lists *)

Lemma quiet_effect (req : option call) (m : M unit) :
  quiet m → handler_effect req m.
Proof.
  intros Hm p. destruct (Hm p) as [(Hf & Hmax & Hc & Ha) Hout].
  split_and!; [exact Hf|exact Hmax|]. by apply nothing_added.
Qed.

Lemma attempt_connect_effect (ec : error_code) (addr : network_address) :
  handler_effect (Some (hosts_fetch_address bind_attempt_connect))
    (attempt_connect ec addr).
Proof.
  unfold attempt_connect. destruct (is_error ec).
  { apply quiet_effect. quiet_by_parts. }
  intros p. unfold mbind, M_bind, this.
  destruct (already_connected addr (connections_ p)).
  - split_and!; [reflexivity..|]. apply nothing_added; [done..|].
    by repeat constructor.
  - split_and!; [reflexivity..|]. by eapply (connect_issued _ _ _ _ addr).
Qed.

Lemma handle_connect_effect (hostname : string) (service_port : N)
    (ec : error_code) (n : channel_ptr) (addr : network_address) :
  handler_effect (Some (connect hostname service_port (bind_handle_connect addr)))
    (handle_connect ec n addr).
Proof.
  unfold handle_connect. destruct (is_error ec).
  - apply quiet_effect. quiet_by_parts.
  - intros p. split_and!; [reflexivity..|].
    by eapply (outbound_added _ _ _ _ hostname service_port addr n).
Qed.

Lemma handle_accept_effect (on accept : acceptor_ptr) (ec : error_code)
    (n : channel_ptr) :
  handler_effect (Some (acceptor_accept on (bind_handle_accept accept)))
    (handle_accept ec n accept).
Proof.
  unfold handle_accept. destruct (is_error ec).
  - apply quiet_effect. quiet_by_parts.
  - intros p. split_and!; [reflexivity..|].
    by eapply (inbound_added _ _ _ _ on accept n).
Qed.

Lemma handle_listen_effect (listen_port : N) (ec : error_code)
    (accept : acceptor_ptr) :
  handler_effect (Some (network_listen listen_port bind_handle_listen))
    (handle_listen ec accept).
Proof.
  unfold handle_listen. destruct (is_error ec).
  - apply quiet_effect. quiet_by_parts.
  - intros p. split_and!; [reflexivity..|].
    by eapply (accept_armed _ _ _ _ listen_port accept).
Qed.

Lemma run_ec_handler_quiet (h : ec_handler) (ec : error_code) :
  quiet (run_ec_handler h ec).
Proof.
  destruct h; cbn [run_ec_handler];
    unfold handle_save, load_hosts, seeds_handle_send_get_address,
      seeds_handle_store, handle_store_address;
    quiet_by_parts.
Qed.

Lemma answer_effect (req : call) (r : reply) (m : M unit) :
  answer req r = Some m → handler_effect (Some req) m.
Proof.
  destruct req as [f h|f h|h|h|a h|h|host prt h|n msg h|n h|n h|prt h|acc h|h
                   |h|n|h ec|h ec k|];
    destruct r as [ec'|ec' k'|ec' a'|ec' n'|ec' pk|ec' acc'|];
    cbn [answer];
    repeat match goal with
           | |- context [match ?x with _ => _ end] => is_var x; destruct x
           end;
    try discriminate; intros [= <-];
    first [ apply quiet_effect, run_ec_handler_quiet
          | apply attempt_connect_effect
          | apply handle_connect_effect
          | apply handle_accept_effect
          | apply handle_listen_effect
          | apply quiet_effect; cbn [run_posted_handler];
            unfold if_0_seed, seeds_request_addresses,
              seeds_save_addresses, self_fields, self_modify,
              receive_address_message, do_fetch_connection_count;
            solve [quiet_by_parts]
          | apply quiet_effect;
            match goal with |- quiet (run_posted_handler ?h) => destruct h end;
            cbn [run_posted_handler]; unfold do_fetch_connection_count;
            solve [quiet_by_parts] ].
Qed.

(** One step of the machine and the lists. *)
Lemma step_effect (c c' : config)
    (e : event) :
  step c e = Some c' →
  ∃ out,
    calls_made c' = calls_made c ++ out
    ∧ in_flight c'
      = still_waiting c e ++ filter (λ x, is_request x = true) out
    ∧ hosts_filename_ (core c') = hosts_filename_ (core c)
    ∧ max_outbound_ (core c') = max_outbound_ (core c)
    ∧ list_effect (core c) (answered_request c e) (core c') out.
Proof.
  assert (∀ m waiting req, handler_effect req m →
            ∃ out,
              calls_made (perform m waiting c) = calls_made c ++ out
              ∧ in_flight (perform m waiting c)
                = waiting ++ filter (λ x, is_request x = true) out
              ∧ hosts_filename_ (core (perform m waiting c))
                = hosts_filename_ (core c)
              ∧ max_outbound_ (core (perform m waiting c))
                = max_outbound_ (core c)
              ∧ list_effect (core c) req (core (perform m waiting c)) out)
    as Hperform.
  { intros m waiting req Hm. unfold perform. specialize (Hm (core c)).
    destruct (m (core c)) as [[[] p'] out]. cbn [fst snd] in Hm.
    destruct Hm as (Hf & Hmax & Hlists).
    exists out. cbn [calls_made in_flight core].
    split_and!; [reflexivity|reflexivity|exact Hf|exact Hmax|exact Hlists]. }
  destruct e as [h|h|h|h|i r]; cbn [step answered_request still_waiting].
  - intros [= <-]. apply Hperform, quiet_effect.
    unfold start, bootstrap. quiet_by_parts.
  - intros [= <-]. apply Hperform, quiet_effect. unfold stop. quiet_by_parts.
  - intros [= <-]. apply Hperform, quiet_effect.
    unfold fetch_connection_count. quiet_by_parts.
  - intros [= <-]. apply Hperform, quiet_effect.
    unfold subscribe_channel. quiet_by_parts.
  - destruct (in_flight c !! i) as [req|] eqn:Hreq; [|discriminate].
    cbn [mbind option_bind]. destruct (answer req r) as [m|] eqn:Hm;
      [|discriminate].
    intros [= <-]. apply Hperform. exact (answer_effect req r m Hm).
Qed.

(** X11.  One step of the machine, whatever the event: [hosts_filename_] and
    [max_outbound_] stay as they are; the calls made are appended to the
    log and the requests among them join those in flight; and as for the
    two lists, either nothing is added to either, no accept is armed and
    no outbound connect is issued; or the step is an [attempt_connect]
    whose scan found no match, which issues one connect and leaves the
    lists alone; or it is a successful [handle_connect], which appends one entry
    (the bound address and the new channel) to the outbound list, or a
    successful [handle_accept], which appends the new channel to the
    inbound list, both followed by the four calls of [setup_new_channel],
    or a successful [handle_listen], which arms one accept. *)
Theorem step_adds_only_through_connect_and_accept (c c' : config)
    (e : event) :
  step c e = Some c' →
  ∃ out,
    calls_made c' = calls_made c ++ out
    ∧ in_flight c'
      = still_waiting c e ++ filter (λ x, is_request x = true) out
    ∧ hosts_filename_ (core c') = hosts_filename_ (core c)
    ∧ max_outbound_ (core c') = max_outbound_ (core c)
    ∧ list_effect (core c) (answered_request c e) (core c') out.
Proof. exact (step_effect c c' e). Qed.

Lemma step_adds_only_through_connect_and_accept_witness :
  ∃ out,
    calls_made started = calls_made initial ++ out
    ∧ in_flight started
      = still_waiting initial (api_start 0)
        ++ filter (λ x, is_request x = true) out
    ∧ hosts_filename_ (core started) = hosts_filename_ (core initial)
    ∧ max_outbound_ (core started) = max_outbound_ (core initial)
    ∧ list_effect (core initial) (answered_request initial (api_start 0))
        (core started) out.
Proof.
  exact (step_adds_only_through_connect_and_accept initial started
           (api_start 0) eq_refl).
Defined.

(** ** What holds in every configuration reached from a fresh object *)

Lemma steps_invariant (I : config → Prop) :
  (∀ c e c', I c → step c e = Some c' → I c') →
  ∀ es c0 c, I c0 → steps c0 es = Some c → I c.
Proof.
  intros Hstep es. induction es as [|e es IH]; intros c0 c H0.
  - intros [= <-]. exact H0.
  - cbn [steps]. destruct (step c0 e) as [c1|] eqn:He; [|discriminate].
    cbn [mbind option_bind]. apply IH. exact (Hstep c0 e c1 H0 He).
Qed.

(** X12.  In every configuration reached from a freshly constructed object,
    [max_outbound_] is 8 and [hosts_filename_] is "hosts": nothing ever
    assigns them.  So [try_connect] there issues 8 - |outbound| requests
    (none from 8 entries on), and [stop] saves to "hosts". *)
Theorem reached_keeps_configuration (es : list event) (c : config) :
  steps initial es = Some c →
  max_outbound_ (core c) = 8
  ∧ hosts_filename_ (core c) = "hosts"
  ∧ calls_of try_connect (core c)
    = replicate (8 - length (connections_ (core c)))
        (hosts_fetch_address bind_attempt_connect)
  ∧ ∀ h, calls_of (stop h) (core c)
         = [hosts_save "hosts" (bind_handle_save h)].
Proof.
  intros Hreached.
  assert (max_outbound_ (core c) = 8 ∧ hosts_filename_ (core c) = "hosts")
    as [Hmax Hfile].
  { refine (steps_invariant
              (λ c, max_outbound_ (core c) = 8
                    ∧ hosts_filename_ (core c) = "hosts")
              _ es initial c _ Hreached); [|split; reflexivity].
    intros c1 e c2 [Hmax Hfile] Hstep.
    destruct (step_effect c1 c2 e Hstep)
      as (out & _ & _ & Hfile' & Hmax' & _).
    split; congruence. }
  split_and!; [exact Hmax|exact Hfile| |].
  - unfold calls_of. rewrite try_connect_run, Hmax. reflexivity.
  - intros h. unfold calls_of, stop, mbind, M_bind, this. cbn.
    by rewrite Hfile.
Qed.

Lemma reached_keeps_configuration_witness :
  max_outbound_ (core after_warm_start) = 8
  ∧ hosts_filename_ (core after_warm_start) = "hosts"
  ∧ calls_of try_connect (core after_warm_start)
    = replicate (8 - length (connections_ (core after_warm_start)))
        (hosts_fetch_address bind_attempt_connect)
  ∧ ∀ h, calls_of (stop h) (core after_warm_start)
         = [hosts_save "hosts" (bind_handle_save h)].
Proof.
  apply (reached_keeps_configuration warm_start after_warm_start).
  vm_compute. reflexivity.
Defined.

Lemma listed_channels_elem (n : channel_ptr) (p : protocol) :
  n ∈ listed_channels p
  ↔ n ∈ node <$> connections_ p ∨ n ∈ accepted_channels_ p.
Proof. apply elem_of_app. Qed.

Lemma sublist_elem {A} (l k : list A) (x : A) :
  l `sublist_of` k → x ∈ l → x ∈ k.
Proof.
  intros Hsub Hx. eapply elem_of_submseteq; [exact Hx|].
  by apply sublist_submseteq.
Qed.

(** X13.  In every configuration reached from a fresh object, each channel
    in the outbound or the inbound list has been set up: the log holds its
    stop subscription (bound to [channel_stopped] with that channel), its
    address subscription, the [get_address] sent to it and its relay to the
    channel subscribers. *)
Theorem listed_channels_were_set_up (es : list event) (c : config)
    (n : channel_ptr) :
  steps initial es = Some c →
  n ∈ listed_channels (core c) →
  Forall (λ x, x ∈ calls_made c) (setup_calls n).
Proof.
  intros Hreached. revert n.
  refine (steps_invariant
            (λ c, ∀ n, n ∈ listed_channels (core c) →
                       Forall (λ x, x ∈ calls_made c) (setup_calls n))
            _ es initial c _ Hreached).
  2:{ intros n Hn. by apply not_elem_of_nil in Hn. }
  clear. intros c1 e c2 IH Hstep n Hn.
  destruct (step_effect c1 c2 e Hstep) as (out & Hlog & _ & _ & _ & Heffect).
  rewrite Hlog.
  assert (n ∈ listed_channels (core c1) →
          Forall (λ x, x ∈ calls_made c1 ++ out) (setup_calls n)) as Hold.
  { intros Hn1. eapply Forall_impl; [exact (IH n Hn1)|].
    intros x Hx. apply elem_of_app. by left. }
  assert (Forall (λ x, x ∈ calls_made c1 ++ setup_calls n) (setup_calls n))
    as Hnew.
  { apply Forall_forall. intros x Hx. apply elem_of_app. by right. }
  apply listed_channels_elem in Hn.
  destruct Heffect as [Hout Hin _|addr _ Hout Hin _
                       |host prt addr n0 _ Hout Hin ->
                       |on acc n0 _ Hout Hin ->|prt acc _ Hout Hin _].
  - apply Hold, listed_channels_elem. destruct Hn as [Hn|Hn].
    + left. eapply sublist_elem; [|exact Hn]. by apply fmap_sublist.
    + right. by eapply sublist_elem.
  - rewrite Hout, Hin in Hn. by apply Hold, listed_channels_elem.
  - rewrite Hout, Hin, fmap_app, elem_of_app in Hn.
    destruct Hn as [[Hn|Hn]|Hn].
    + apply Hold, listed_channels_elem. by left.
    + apply list_elem_of_singleton in Hn. cbn in Hn. subst n0. exact Hnew.
    + apply Hold, listed_channels_elem. by right.
  - rewrite Hout, Hin, elem_of_app in Hn.
    destruct Hn as [Hn|[Hn|Hn]].
    + apply Hold, listed_channels_elem. by left.
    + apply Hold, listed_channels_elem. by right.
    + apply list_elem_of_singleton in Hn. subst n0. exact Hnew.
  - rewrite Hout, Hin in Hn. by apply Hold, listed_channels_elem.
Qed.

(** ** Accepts and listens *)

Lemma count_calls_app (kind : call → bool) (xs ys : list call) :
  count_calls kind (xs ++ ys) = count_calls kind xs + count_calls kind ys.
Proof. unfold count_calls. by rewrite filter_app, length_app. Qed.

Lemma count_calls_delete (kind : call → bool) (l : list call) (i : nat)
    (x : call) :
  l !! i = Some x →
  count_calls kind (delete i l) + (if kind x then 1 else 0)
  = count_calls kind l.
Proof.
  unfold count_calls. revert i.
  induction l as [|y l IH]; intros i Hi; [by destruct i|].
  destruct i as [|i]; cbn [delete list_delete].
  - cbn in Hi. injection Hi as ->.
    destruct (kind x) eqn:Hx.
    + rewrite (filter_cons_True _ x l) by exact Hx. cbn [length].
      rewrite Nat.add_1_r. reflexivity.
    + rewrite (filter_cons_False _ x l) by congruence.
      rewrite Nat.add_0_r. reflexivity.
  - cbn in Hi. specialize (IH i Hi).
    destruct (kind y) eqn:Hy.
    + rewrite !(filter_cons_True _ y) by exact Hy. cbn [length Nat.add].
      f_equal. exact IH.
    + rewrite !(filter_cons_False _ y) by congruence. exact IH.
Qed.

Lemma count_calls_requests (kind : call → bool) (out : list call) :
  (∀ x, kind x = true → is_request x = true) →
  count_calls kind (filter (λ x, is_request x = true) out)
  = count_calls kind out.
Proof.
  intros Hkind. unfold count_calls.
  induction out as [|x out IH]; [reflexivity|].
  destruct (is_request x) eqn:Hreq.
  - rewrite (filter_cons_True (λ x, is_request x = true)) by exact Hreq.
    destruct (kind x) eqn:Hx.
    + rewrite !(filter_cons_True (λ c, kind c = true)) by exact Hx.
      cbn [length]. by rewrite IH.
    + rewrite !(filter_cons_False (λ c, kind c = true)) by congruence.
      exact IH.
  - rewrite (filter_cons_False (λ x, is_request x = true)) by congruence.
    rewrite (filter_cons_False (λ c, kind c = true) x out); [exact IH|].
    intros Hx. apply Hkind in Hx. congruence.
Qed.

Lemma count_calls_none (kind : call → bool) (out : list call) :
  Forall (λ c, kind c = false) out → count_calls kind out = 0.
Proof.
  unfold count_calls. induction 1 as [|x out Hx _ IH]; [reflexivity|].
  rewrite filter_cons_False by congruence. exact IH.
Qed.

Lemma delete_absent {A} (l : list A) (i : nat) :
  l !! i = None → delete i l = l.
Proof.
  revert i. induction l as [|x l IH]; intros i Hi; [by destruct i|].
  destruct i as [|i]; [discriminate|].
  cbn [delete list_delete]. f_equal. exact (IH i Hi).
Qed.

Lemma still_waiting_count (kind : call → bool) (c : config) (e : event) :
  match answered_request c e with
  | Some req =>
      count_calls kind (still_waiting c e) + (if kind req then 1 else 0)
      = count_calls kind (in_flight c)
  | None => count_calls kind (still_waiting c e) = count_calls kind (in_flight c)
  end.
Proof.
  destruct e as [h|h|h|h|i r]; cbn [answered_request still_waiting];
    try reflexivity.
  destruct (in_flight c !! i) as [req|] eqn:Hreq.
  - by apply count_calls_delete.
  - by rewrite (delete_absent _ _ Hreq).
Qed.

(** X14.  In every configuration reached from a fresh object, the inbound
    list holds at most as many channels as accepts were issued, and at most
    as many accepts were issued as listens: a listen arms one accept at
    most, an accept yields one inbound channel at most, and nothing arms an
    accept again.  (Counting the requests still in flight: channels plus
    pending accepts never exceed the accepts issued, and accepts issued
    plus pending listens never exceed the listens issued.) *)
Theorem inbound_bounded_by_listens (es : list event) (c : config) :
  steps initial es = Some c →
  (length (accepted_channels_ (core c)) + count_calls is_accept (in_flight c)
   ≤ count_calls is_accept (calls_made c))
  ∧ (count_calls is_accept (calls_made c) + count_calls is_listen (in_flight c)
     ≤ count_calls is_listen (calls_made c))
  ∧ length (accepted_channels_ (core c))
    ≤ count_calls is_listen (calls_made c).
Proof.
  intros Hreached.
  assert ((length (accepted_channels_ (core c))
           + count_calls is_accept (in_flight c)
           ≤ count_calls is_accept (calls_made c))
          ∧ (count_calls is_accept (calls_made c)
             + count_calls is_listen (in_flight c)
             ≤ count_calls is_listen (calls_made c))) as [Hacc Hlis];
    [|split_and!; [exact Hacc|exact Hlis|lia]].
  refine (steps_invariant
            (λ c, (length (accepted_channels_ (core c))
                   + count_calls is_accept (in_flight c)
                   ≤ count_calls is_accept (calls_made c))
                  ∧ (count_calls is_accept (calls_made c)
                     + count_calls is_listen (in_flight c)
                     ≤ count_calls is_listen (calls_made c)))
            _ es initial c _ Hreached); [|split; cbn; lia].
  clear. intros c1 e c2 [Hacc Hlis] Hstep.
  destruct (step_effect c1 c2 e Hstep) as (out & Hlog & Hfl & _ & _ & Heffect).
  rewrite Hlog, Hfl, !count_calls_app.
  rewrite (count_calls_requests is_accept out) by (by intros []).
  rewrite (count_calls_requests is_listen out) by (by intros []).
  pose proof (still_waiting_count is_accept c1 e) as Hwa.
  pose proof (still_waiting_count is_listen c1 e) as Hwl.
  destruct Heffect as [_ Hin Hout|addr Hreq _ Hin ->
                       |host prt addr n0 Hreq _ Hin ->
                       |on acc n0 Hreq _ Hin ->|prt acc Hreq _ Hin ->].
  - apply sublist_length in Hin.
    rewrite (count_calls_none is_accept out)
      by (eapply Forall_impl; [exact Hout|];
          intros x Hx; by apply orb_false_iff in Hx as [? ?]).
    destruct (answered_request c1 e) as [req|];
      [destruct (is_accept req), (is_listen req)|]; lia.
  - rewrite Hreq in Hwa, Hwl. cbn [is_accept is_listen] in Hwa, Hwl.
    rewrite Hin.
    change (count_calls is_accept [connect (pretty_ip (ip addr)) (port addr)
                                     (bind_handle_connect addr)]) with 0.
    change (count_calls is_listen [connect (pretty_ip (ip addr)) (port addr)
                                     (bind_handle_connect addr)]) with 0.
    lia.
  - rewrite Hreq in Hwa, Hwl. cbn [is_accept is_listen] in Hwa, Hwl.
    rewrite Hin.
    change (count_calls is_accept (setup_calls n0)) with 0.
    change (count_calls is_listen (setup_calls n0)) with 0. lia.
  - rewrite Hreq in Hwa, Hwl. cbn [is_accept is_listen] in Hwa, Hwl.
    rewrite Hin, length_app. cbn [length].
    change (count_calls is_accept (setup_calls n0)) with 0.
    change (count_calls is_listen (setup_calls n0)) with 0. lia.
  - rewrite Hreq in Hwa, Hwl. cbn [is_accept is_listen] in Hwa, Hwl.
    rewrite Hin.
    change (count_calls is_accept [acceptor_accept acc (bind_handle_accept acc)])
      with 1.
    change (count_calls is_listen [acceptor_accept acc (bind_handle_accept acc)])
      with 0. lia.
Qed.

Lemma listed_channels_were_set_up_witness :
  Forall (λ x, x ∈ calls_made after_same_draw_twice) (setup_calls 2).
Proof.
  apply (listed_channels_were_set_up same_draw_twice after_same_draw_twice 2).
  - vm_compute. reflexivity.
  - apply (bool_decide_unpack _). vm_compute. exact I.
Defined.

Lemma inbound_bounded_by_listens_witness :
  (length (accepted_channels_ (core after_warm_start))
   + count_calls is_accept (in_flight after_warm_start)
   ≤ count_calls is_accept (calls_made after_warm_start))
  ∧ (count_calls is_accept (calls_made after_warm_start)
     + count_calls is_listen (in_flight after_warm_start)
     ≤ count_calls is_listen (calls_made after_warm_start))
  ∧ length (accepted_channels_ (core after_warm_start))
    ≤ count_calls is_listen (calls_made after_warm_start).
Proof.
  apply (inbound_bounded_by_listens warm_start after_warm_start).
  vm_compute. reflexivity.
Defined.

(** ** Outbound entries, connects and fetches *)

(** X15.  In every configuration reached from a fresh object, the outbound
    list holds at most as many entries as the maintainer issued connects,
    and the maintainer issued at most as many connects as [fetch_address]
    calls were made: an answered fetch leads to one connect at most, an
    answered connect to one entry at most.  (Counting what is in flight:
    entries plus pending connects never exceed the connects issued, and
    connects issued plus pending fetches never exceed the fetches made.) *)
Theorem outbound_bounded_by_fetches (es : list event) (c : config) :
  steps initial es = Some c →
  (length (connections_ (core c))
   + count_calls is_outbound_connect (in_flight c)
   ≤ count_calls is_outbound_connect (calls_made c))
  ∧ (count_calls is_outbound_connect (calls_made c)
     + count_calls is_fetch_address (in_flight c)
     ≤ count_calls is_fetch_address (calls_made c))
  ∧ length (connections_ (core c))
    ≤ count_calls is_fetch_address (calls_made c).
Proof.
  intros Hreached.
  assert ((length (connections_ (core c))
           + count_calls is_outbound_connect (in_flight c)
           ≤ count_calls is_outbound_connect (calls_made c))
          ∧ (count_calls is_outbound_connect (calls_made c)
             + count_calls is_fetch_address (in_flight c)
             ≤ count_calls is_fetch_address (calls_made c))) as [Hcon Hfet];
    [|split_and!; [exact Hcon|exact Hfet|lia]].
  refine (steps_invariant
            (λ c, (length (connections_ (core c))
                   + count_calls is_outbound_connect (in_flight c)
                   ≤ count_calls is_outbound_connect (calls_made c))
                  ∧ (count_calls is_outbound_connect (calls_made c)
                     + count_calls is_fetch_address (in_flight c)
                     ≤ count_calls is_fetch_address (calls_made c)))
            _ es initial c _ Hreached); [|split; cbn; lia].
  clear. intros c1 e c2 [Hcon Hfet] Hstep.
  destruct (step_effect c1 c2 e Hstep) as (out & Hlog & Hfl & _ & _ & Heffect).
  rewrite Hlog, Hfl, !count_calls_app.
  rewrite (count_calls_requests is_outbound_connect out)
    by (intros [] Hx; try discriminate; reflexivity).
  rewrite (count_calls_requests is_fetch_address out) by (by intros []).
  pose proof (still_waiting_count is_outbound_connect c1 e) as Hwc.
  pose proof (still_waiting_count is_fetch_address c1 e) as Hwf.
  destruct Heffect as [Hout _ Hquiet|addr Hreq Hout _ ->
                       |host prt addr n0 Hreq Hout _ ->
                       |on acc n0 Hreq Hout _ ->|prt acc Hreq Hout _ ->].
  - apply sublist_length in Hout.
    rewrite (count_calls_none is_outbound_connect out)
      by (eapply Forall_impl; [exact Hquiet|];
          intros x Hx; by apply orb_false_iff in Hx as [? ?]).
    destruct (answered_request c1 e) as [req|];
      [destruct (is_outbound_connect req), (is_fetch_address req)|]; lia.
  - rewrite Hreq in Hwc, Hwf.
    cbn [is_outbound_connect is_fetch_address] in Hwc, Hwf. rewrite Hout.
    change (count_calls is_outbound_connect
              [connect (pretty_ip (ip addr)) (port addr)
                 (bind_handle_connect addr)]) with 1.
    change (count_calls is_fetch_address
              [connect (pretty_ip (ip addr)) (port addr)
                 (bind_handle_connect addr)]) with 0.
    lia.
  - rewrite Hreq in Hwc, Hwf.
    cbn [is_outbound_connect is_fetch_address] in Hwc, Hwf.
    rewrite Hout, length_app. cbn [length].
    change (count_calls is_outbound_connect (setup_calls n0)) with 0.
    change (count_calls is_fetch_address (setup_calls n0)) with 0. lia.
  - rewrite Hreq in Hwc, Hwf.
    cbn [is_outbound_connect is_fetch_address] in Hwc, Hwf. rewrite Hout.
    change (count_calls is_outbound_connect (setup_calls n0)) with 0.
    change (count_calls is_fetch_address (setup_calls n0)) with 0. lia.
  - rewrite Hreq in Hwc, Hwf.
    cbn [is_outbound_connect is_fetch_address] in Hwc, Hwf. rewrite Hout.
    change (count_calls is_outbound_connect
              [acceptor_accept acc (bind_handle_accept acc)]) with 0.
    change (count_calls is_fetch_address
              [acceptor_accept acc (bind_handle_accept acc)]) with 0.
    lia.
Qed.

Lemma outbound_bounded_by_fetches_witness :
  (length (connections_ (core after_same_draw_twice))
   + count_calls is_outbound_connect (in_flight after_same_draw_twice)
   ≤ count_calls is_outbound_connect (calls_made after_same_draw_twice))
  ∧ (count_calls is_outbound_connect (calls_made after_same_draw_twice)
     + count_calls is_fetch_address (in_flight after_same_draw_twice)
     ≤ count_calls is_fetch_address (calls_made after_same_draw_twice))
  ∧ length (connections_ (core after_same_draw_twice))
    ≤ count_calls is_fetch_address (calls_made after_same_draw_twice).
Proof.
  apply (outbound_bounded_by_fetches same_draw_twice after_same_draw_twice).
  vm_compute. reflexivity.
Defined.

(** ** The host name of a connect *)

Lemma pretty_byte_dotless (b : N) : (b < 256)%N → dotless (pretty b) = true.
Proof.
  intros Hb.
  assert (forallb (λ n, dotless (pretty (N.of_nat n))) (seq 0 256) = true)
    as Hall by (vm_compute; reflexivity).
  rewrite forallb_forall in Hall.
  rewrite <- (N2Nat.id b). apply Hall, in_seq. lia.
Qed.

Lemma append_empty (t : string) : "" +:+ t = t.
Proof. reflexivity. Qed.

Lemma append_String (a : Ascii.ascii) (s t : string) :
  String a s +:+ t = String a (s +:+ t).
Proof. reflexivity. Qed.

Lemma dotted_split (s s' t t' : string) :
  dotless s = true → dotless s' = true →
  s +:+ "." +:+ t = s' +:+ "." +:+ t' → s = s' ∧ t = t'.
Proof.
  revert s'. induction s as [|a s IH]; intros [|a' s'] Hs Hs' Heq;
    rewrite ?append_empty, ?append_String, ?append_empty in Heq.
  - by injection Heq as ->.
  - cbn [dotless] in Hs'. injection Heq as <- _. discriminate.
  - cbn [dotless] in Hs. injection Heq as -> _. discriminate.
  - cbn [dotless] in Hs, Hs'. injection Heq as -> Heq.
    apply andb_true_iff in Hs as [_ Hs], Hs' as [_ Hs'].
    destruct (IH s' Hs Hs' Heq) as [-> ->]. done.
Qed.

(** X16.  For two 16-byte addresses, the host name [pretty] builds for the
    connect is the same exactly when bytes 12 to 15 are the same: the
    dotted quad tells any two IPv4 addresses apart, and bytes 0 to 11 play
    no part in it (while the scan of [attempt_connect] compares all
    sixteen). *)
Theorem pretty_ip_reads_the_last_four_bytes (a a' : list N) :
  length a = 16 → length a' = 16 →
  Forall (λ b, (b < 256)%N) a → Forall (λ b, (b < 256)%N) a' →
  pretty_ip a = pretty_ip a' ↔ drop 12 a = drop 12 a'.
Proof.
  intros Hlen Hlen' Hbytes Hbytes'.
  assert (∀ (l : list N) i, length l = 16 → Forall (λ b, (b < 256)%N) l →
            i < 16 →
            l !! i = Some (default 0%N (l !! i))
            ∧ (default 0%N (l !! i) < 256)%N) as Hbyte.
  { intros l i Hl Hall Hi.
    destruct (l !! i) as [b|] eqn:Hb.
    - split; [reflexivity|]. exact (proj1 (Forall_lookup _ l) Hall i b Hb).
    - apply lookup_ge_None in Hb. lia. }
  unfold pretty_ip. split.
  - intros Heq.
    destruct (Hbyte a 12 Hlen Hbytes) as [H12 D12]; [lia|].
    destruct (Hbyte a 13 Hlen Hbytes) as [H13 D13]; [lia|].
    destruct (Hbyte a 14 Hlen Hbytes) as [H14 D14]; [lia|].
    destruct (Hbyte a 15 Hlen Hbytes) as [H15 _]; [lia|].
    destruct (Hbyte a' 12 Hlen' Hbytes') as [H12' D12']; [lia|].
    destruct (Hbyte a' 13 Hlen' Hbytes') as [H13' D13']; [lia|].
    destruct (Hbyte a' 14 Hlen' Hbytes') as [H14' D14']; [lia|].
    destruct (Hbyte a' 15 Hlen' Hbytes') as [H15' _]; [lia|].
    apply dotted_split in Heq as [E12 Heq]; [|by apply pretty_byte_dotless..].
    apply dotted_split in Heq as [E13 Heq]; [|by apply pretty_byte_dotless..].
    apply dotted_split in Heq as [E14 E15]; [|by apply pretty_byte_dotless..].
    apply (inj pretty) in E12, E13, E14, E15.
    apply list_eq. intros j. rewrite !lookup_drop.
    destruct (decide (j < 4)) as [Hj|Hj].
    + destruct j as [|[|[|[|j]]]]; [| | |  |lia]; cbn [Nat.add];
        congruence.
    + rewrite (proj2 (lookup_ge_None a (12 + j))) by lia.
      rewrite (proj2 (lookup_ge_None a' (12 + j))) by lia. reflexivity.
  - intros Heq.
    assert (∀ j, a !! (12 + j) = a' !! (12 + j)) as Hsame.
    { intros j. by rewrite <- !lookup_drop, Heq. }
    pose proof (Hsame 0) as E12. pose proof (Hsame 1) as E13.
    pose proof (Hsame 2) as E14. pose proof (Hsame 3) as E15.
    cbn [Nat.add] in E12, E13, E14, E15.
    rewrite E12, E13, E14, E15. reflexivity.
Qed.

Lemma pretty_ip_reads_the_last_four_bytes_witness :
  pretty_ip (ipv4 10 0 0 1) = pretty_ip (replicate 12 7%N ++ [10; 0; 0; 1]%N)
  ↔ drop 12 (ipv4 10 0 0 1) = drop 12 (replicate 12 7%N ++ [10; 0; 0; 1]%N).
Proof.
  apply (pretty_ip_reads_the_last_four_bytes (ipv4 10 0 0 1)
           (replicate 12 7%N ++ [10; 0; 0; 1]%N));
    [reflexivity|reflexivity| |];
    apply Forall_forall; intros b Hb; apply list_elem_of_In in Hb;
    cbn in Hb; intuition (subst; reflexivity).
Defined.

(** ** Errors on the bootstrap path *)

Lemma completion_is_no_request (h : caller_handler) (ec : error_code) :
  filter (λ x, is_request x = true) [completion_called h ec] = [].
Proof. reflexivity. Qed.

(** X17.  In any configuration, [start] allocates a fresh counter at 0 and
    issues two requests that share it: the load of the hosts file and the
    start of the handshake service.  If the load is answered with an error,
    or the load succeeds and the count is answered with an error, the
    caller's handler is called with that error and nothing else is done: no
    count (respectively no seeder, no connect), no field changes, and the
    handshake service request stays in flight. *)
Theorem bootstrap_errors_reach_the_caller (c : config) (h : caller_handler)
    (ec : error_code) (hosts_count : nat) :
  is_error ec = true →
  let k := length (counter_heap (core c)) in
  let at_load := length (in_flight c) in
  let load :=
    hosts_load (hosts_filename_ (core c))
      (bind_load_hosts (wrap_handle_bootstrap k h)) in
  let service :=
    handshake_start (bind_handle_start_handshake_service k h) in
  let count := hosts_fetch_count (bind_if_0_seed (wrap_handle_bootstrap k h)) in
  ∃ c1,
    step c (api_start h) = Some c1
    ∧ core c1 = set_counter_heap (λ cs, cs ++ [0]) (core c)
    ∧ in_flight c1 = in_flight c ++ [load; service]
    ∧ calls_made c1 = calls_made c ++ [load; service]
    ∧ steps c1 [answered at_load (with_ec ec)]
      = Some (mk_config (core c1) (in_flight c ++ [service])
                (calls_made c1 ++ [completion_called h ec]))
    ∧ steps c1 [answered at_load (with_ec no_error);
                answered (S at_load) (with_count ec hosts_count)]
      = Some (mk_config (core c1) (in_flight c ++ [service])
                (calls_made c1 ++ [count; completion_called h ec])).
Proof.
  intros Hec k at_load load service count.
  exists (mk_config (set_counter_heap (λ cs, cs ++ [0]) (core c))
            (in_flight c ++ [load; service])
            (calls_made c ++ [load; service])).
  split_and!; try reflexivity.
  - cbn [steps step in_flight]. subst at_load.
    rewrite list_lookup_middle by reflexivity. cbn [mbind option_bind].
    rewrite delete_middle.
    unfold load. cbn [answer run_ec_handler mbind option_bind].
    unfold perform, load_hosts. rewrite Hec. cbn [invoke core].
    rewrite handle_bootstrap_error by exact Hec.
    rewrite completion_is_no_request, app_nil_r. reflexivity.
  - set (c1 := mk_config (set_counter_heap (λ cs, cs ++ [0]) (core c))
                 (in_flight c ++ [load; service])
                 (calls_made c ++ [load; service])).
    set (c2 := mk_config (core c1) ((in_flight c ++ [service]) ++ [count])
                 (calls_made c1 ++ [count])).
    assert (step c1 (answered at_load (with_ec no_error)) = Some c2) as Hloaded.
    { cbn [step in_flight c1]. subst at_load.
      rewrite list_lookup_middle by reflexivity. cbn [mbind option_bind].
      rewrite delete_middle. reflexivity. }
    assert (step c2 (answered (S at_load) (with_count ec hosts_count))
            = Some (mk_config (core c1) (in_flight c ++ [service])
                      ((calls_made c1 ++ [count])
                       ++ [completion_called h ec]))) as Hcounted.
    { cbn [step in_flight c2]. subst at_load.
      replace (S (length (in_flight c)))
        with (length (in_flight c ++ [service]))
        by (rewrite length_app; cbn; lia).
      rewrite list_lookup_middle by reflexivity. cbn [mbind option_bind].
      rewrite delete_middle, app_nil_r.
      unfold count. cbn [answer mbind option_bind].
      unfold perform, if_0_seed. rewrite Hec. cbn [invoke core].
      rewrite handle_bootstrap_error by exact Hec.
      rewrite completion_is_no_request, app_nil_r. reflexivity. }
    cbn [steps]. rewrite Hloaded. cbn [mbind option_bind].
    rewrite Hcounted. cbn [mbind option_bind].
    rewrite <- app_assoc. reflexivity.
Qed.

Lemma bootstrap_errors_reach_the_caller_witness :
  ∃ c1,
    step initial (api_start 0) = Some c1
    ∧ core c1 = set_counter_heap (λ cs, cs ++ [0]) (core initial)
    ∧ in_flight c1
      = [hosts_load "hosts" (bind_load_hosts (wrap_handle_bootstrap 0 0));
         handshake_start (bind_handle_start_handshake_service 0 0)]
    ∧ calls_made c1
      = [hosts_load "hosts" (bind_load_hosts (wrap_handle_bootstrap 0 0));
         handshake_start (bind_handle_start_handshake_service 0 0)]
    ∧ steps c1 [answered 0 (with_ec load_failed)]
      = Some (mk_config (core c1)
                [handshake_start (bind_handle_start_handshake_service 0 0)]
                (calls_made c1 ++ [completion_called 0 load_failed]))
    ∧ steps c1 [answered 0 (with_ec no_error);
                answered 1 (with_count load_failed 5)]
      = Some (mk_config (core c1)
                [handshake_start (bind_handle_start_handshake_service 0 0)]
                (calls_made c1
                 ++ [hosts_fetch_count
                       (bind_if_0_seed (wrap_handle_bootstrap 0 0));
                     completion_called 0 load_failed])).
Proof.
  exact (bootstrap_errors_reach_the_caller initial 0 load_failed 5 eq_refl).
Defined.
